(** * uBPF static verifier (vm/ubpf_verifier.c)

    A shallow embedding of the opcode classifier, the recursive path
    walker and the two verification passes, together with the properties
    the specification states about them.  The source holds two revisions
    of the file; the embedding follows the later one (combined loop /
    dead-code pass, register pass), whose walker is the same as the
    earlier one's.

    Conventions of the embedding.
    - C [int], [uint8_t], [int16_t] and the 4-bit register fields are
      modelled in [Z].  The only arithmetic the verifier performs is
      [inst_off + 1 + inst.offset] and [num_insts - 1]; with offsets of
      a loaded program and an [int16_t] branch offset neither leaves the
      range of [int], so the sums are the mathematical ones.
    - [char visited[n]] and [char reg_init[16]] are lists of [Z]; every
      access goes through [array_get] / [array_set], which fail outside
      the array instead of returning a value (C leaves it undefined).
    - [fprintf(stderr, ...)] and the memory accesses the properties
      are about are recorded in a trace of events that every run
      returns next to its result.
    - The recursion of [ubpf_walk_paths] is not structural; the
      embedding bounds the recursion depth by a [fuel] argument and
      returns [OutOfFuel] when it is exhausted.  Termination is then a
      theorem: a bound on the fuel that always suffices. *)

From stdpp Require Import base numbers list sets relations.
From Stdlib Require Import ZArith Lia Bool.

Local Open Scope Z_scope.
#[local] Set Warnings "-clear-no-such-hyp".

(** ** ebpf.h *)

(** The header [ebpf.h] is not part of the sources at hand, so the names
    the verifier takes from it are the fields of a class, and the code
    below is parametric in them. *)
Class ebpf_h := {
  EBPF_CLS_MASK : Z;
  EBPF_CLS_LDX : Z;
  EBPF_CLS_ST : Z;
  EBPF_CLS_STX : Z;
  EBPF_CLS_ALU : Z;
  EBPF_CLS_JMP : Z;
  EBPF_CLS_ALU64 : Z;
  EBPF_SRC_REG : Z;
  EBPF_OP_NEG : Z;
  EBPF_OP_NEG64 : Z;
  EBPF_OP_LE : Z;
  EBPF_OP_BE : Z;
  EBPF_OP_LDDW : Z;
  EBPF_OP_JA : Z;
  EBPF_OP_CALL : Z;
  EBPF_OP_EXIT : Z;
  EBPF_OP_XOR_REG : Z;
  EBPF_OP_XOR64_REG : Z
}.

(** [struct ebpf_inst]: [uint8_t opcode; uint8_t dst : 4; uint8_t src : 4;
    int16_t offset; int32_t imm]. *)
Record ebpf_inst := mk_inst {
  opcode : Z;
  dst : Z;
  src : Z;
  offset : Z;
  imm : Z
}.

(** [struct ubpf_vm], as far as the verifier looks at it: the instruction
    array; [vm->num_insts] is its length. *)
Record ubpf_vm := mk_vm { insts : list ebpf_inst }.

Definition num_insts (vm : ubpf_vm) : Z := Z.of_nat (length (insts vm)).

(** ** Arrays, traces and results *)

Definition array_get {A} (a : list A) (i : Z) : option A :=
  if i <? 0 then None else a !! Z.to_nat i.

Definition array_set {A} (a : list A) (i : Z) (x : A) : option (list A) :=
  if (0 <=? i) && (i <? Z.of_nat (length a))
  then Some (<[Z.to_nat i := x]> a) else None.

(** The lines the verifier prints on [stderr]. *)
Inductive diag :=
| JumpToSelf (inst_off : Z)
| JumpOutOfBounds (inst_off next_pc : Z)
| LoopDetected (inst_off : Z)
| DeadInstruction (i : Z)
| UninitializedRegister (r inst_off : Z).

(** What a visitor can do besides computing: read [visited], print. *)
Inductive access :=
| RdVisited (i : Z)
| Stderr (d : diag).

(** How the walker arrives at an offset. *)
Inductive edge := Branch | FallThrough.

Inductive event :=
| Fetch (i : Z)               (* vm->insts[i] is read *)
| Visit (i : Z)               (* walk_fn is invoked at offset i *)
| Eff (a : access)
| Mark (i : Z)                (* visited[i] = 1 *)
| Follow (e : edge) (i : Z).  (* the walker calls itself at offset i *)

Inductive result (A : Type) :=
| Done (a : A)
| Fault        (* an access outside an array *)
| OutOfFuel.
Arguments Done {A} a.
Arguments Fault {A}.
Arguments OutOfFuel {A}.

(** Visitors: a trace of accesses and a value, or no value after an
    access outside an array. *)
Definition V (A : Type) : Type := list access * option A.

Definition vret {A} (a : A) : V A := ([], Some a).
Definition vbind {A B} (m : V A) (f : A -> V B) : V B :=
  match m with
  | (tr, Some a) => let '(tr', r) := f a in (tr ++ tr', r)
  | (tr, None) => (tr, None)
  end.
Definition vlift {A} (o : option A) : V A := ([], o).
Definition vstderr (d : diag) : V unit := ([Stderr d], Some tt).
Definition vread_visited (visited : list Z) (i : Z) : V Z :=
  ([RdVisited i], array_get visited i).

(** The walker and the passes. *)
Definition M (A : Type) : Type := list event * result A.

Definition ret {A} (a : A) : M A := ([], Done a).
Definition bind {A B} (m : M A) (f : A -> M B) : M B :=
  match m with
  | (tr, Done a) => let '(tr', r) := f a in (tr ++ tr', r)
  | (tr, Fault) => (tr, Fault)
  | (tr, OutOfFuel) => (tr, OutOfFuel)
  end.
Definition emit (e : event) : M unit := ([e], Done tt).
Definition of_option {A} (o : option A) : M A :=
  ([], match o with Some a => Done a | None => Fault end).
Definition of_visitor {A} (m : V A) : M A :=
  (map Eff m.1, match m.2 with Some a => Done a | None => Fault end).

#[global] Instance M_ret : MRet M := @ret.
#[global] Instance M_bind : MBind M := fun A B f m => bind m f.
#[global] Instance V_ret : MRet V := @vret.
#[global] Instance V_bind : MBind V := fun A B f m => vbind m f.

Definition trace {A} (m : M A) : list event := m.1.
Definition outcome {A} (m : M A) : result A := m.2.

(** The [stderr] stream of a run. *)
Definition diagnostics (tr : list event) : list diag :=
  omap (fun e => match e with Eff (Stderr d) => Some d | _ => None end) tr.

(** The offsets at which the visitor was invoked, in order. *)
Definition entered (tr : list event) : list Z :=
  omap (fun e => match e with Visit i => Some i | _ => None end) tr.

(** [enum ubpf_walk_action] *)
Inductive ubpf_walk_action :=
| UBPF_WALK_CONTINUE
| UBPF_WALK_STOP
| UBPF_WALK_INVALID.

Definition action_code (a : ubpf_walk_action) : Z :=
  match a with
  | UBPF_WALK_CONTINUE => 0
  | UBPF_WALK_STOP => 1
  | UBPF_WALK_INVALID => 2
  end.

Definition is_continue (a : ubpf_walk_action) : bool :=
  match a with UBPF_WALK_CONTINUE => true | _ => false end.

(** The function-pointer type [WALKER], called as
    [walk_fn(vm, inst, data, inst_off, visited)].  A visitor reads
    [visited] and may update what [data] points to (of type [D]); both
    visitors of the file are of this kind. *)
Definition WALKER (D : Type) : Type :=
  ubpf_vm -> ebpf_inst -> D -> Z -> list Z -> V (ubpf_walk_action * D).

Section Verifier.

Context {hdr : ebpf_h}.

(** ** Helpers *)

Definition cls_of (inst : ebpf_inst) : Z := Z.land (opcode inst) EBPF_CLS_MASK.

Definition isjmp (inst : ebpf_inst) : bool :=
  if (cls_of inst =? EBPF_CLS_JMP) && negb (opcode inst =? EBPF_OP_CALL)
  then true
  else false.

Definition uses_src (inst : ebpf_inst) : bool :=
  let cls := cls_of inst in
  if opcode inst =? EBPF_OP_EXIT then true
  else if (cls =? EBPF_CLS_STX) || (cls =? EBPF_CLS_LDX) then true
  else if ((cls =? EBPF_CLS_ALU) || (cls =? EBPF_CLS_ALU64) || (cls =? EBPF_CLS_JMP))
          && negb (Z.land (opcode inst) EBPF_SRC_REG =? 0) then
    (* Non-trivial exceptions *)
    if (opcode inst =? EBPF_OP_NEG) || (opcode inst =? EBPF_OP_NEG64) ||
       (opcode inst =? EBPF_OP_LE) || (opcode inst =? EBPF_OP_BE) ||
       (opcode inst =? EBPF_OP_LDDW) || (opcode inst =? EBPF_OP_JA) ||
       (opcode inst =? EBPF_OP_CALL)
    then false
    else true
  else false.

Definition sets_dst (inst : ebpf_inst) : bool :=
  let cls := cls_of inst in
  if (cls =? EBPF_CLS_ST) || (cls =? EBPF_CLS_STX) || (cls =? EBPF_CLS_JMP)
  then false
  else true.

(** ** Instruction walker *)

Definition fetch (vm : ubpf_vm) (inst_off : Z) : M ebpf_inst :=
  (emit (Fetch inst_off) ;; of_option (array_get (insts vm) inst_off)).

Definition mark (visited : list Z) (inst_off : Z) : M (list Z) :=
  (emit (Mark inst_off) ;; of_option (array_set visited inst_off 1)).

Definition stderr (d : diag) : M unit := emit (Eff (Stderr d)).

Definition read_visited (visited : list Z) (i : Z) : M Z :=
  of_visitor (vread_visited visited i).

Section Walk.

Context {D : Type}.
Variable vm : ubpf_vm.
Variable walk_fn : WALKER D.

Fixpoint ubpf_walk_paths (fuel : nat) (data : D) (inst_off : Z)
    (visited : list Z) {struct fuel} : M (ubpf_walk_action * D * list Z) :=
  match fuel with
  | O => ([], OutOfFuel)
  | S fuel =>
    (inst ← fetch vm inst_off ;
     '(cmd, data) ← (emit (Visit inst_off) ;;
                     of_visitor (walk_fn vm inst data inst_off visited)) ;
     visited ← mark visited inst_off ;
     if negb (is_continue cmd) then ret (cmd, data, visited)
     else if opcode inst =? EBPF_OP_EXIT then
       ret (UBPF_WALK_CONTINUE, data, visited)
     else
       let fall_through data visited :=
         if inst_off =? num_insts vm - 1 then
           ret (UBPF_WALK_CONTINUE, data, visited)
         else
           emit (Follow FallThrough (inst_off + 1)) ;;
           ubpf_walk_paths fuel data (inst_off + 1) visited in
       if isjmp inst then
         let next_pc := inst_off + 1 + offset inst in
         if next_pc =? inst_off then
           stderr (JumpToSelf inst_off) ;;
           ret (UBPF_WALK_INVALID, data, visited)
         else if (next_pc <? 0) || (next_pc >? num_insts vm - 1) then
           stderr (JumpOutOfBounds inst_off next_pc) ;;
           ret (UBPF_WALK_INVALID, data, visited)
         else
           v ← read_visited visited next_pc ;
           if v =? 0 then
             emit (Follow Branch next_pc) ;;
             '(cmd, data, visited) ← ubpf_walk_paths fuel data next_pc visited ;
             match cmd with
             | UBPF_WALK_STOP | UBPF_WALK_INVALID => ret (cmd, data, visited)
             | UBPF_WALK_CONTINUE => fall_through data visited
             end
           else fall_through data visited
       else fall_through data visited)
  end.

(** [char visited[vm->num_insts]; memset(visited, 0, vm->num_insts)] *)
Definition fresh_visited : list Z := replicate (Z.to_nat (num_insts vm)) 0.

Definition ubpf_walk_start (fuel : nat) (data : D) : M Z :=
  ('(cmd, _, _) ← ubpf_walk_paths fuel data 0 fresh_visited ;
   ret (action_code cmd)).

End Walk.

(** ** Verifier passes *)

Definition _walker_no_loops_or_dead_insts : WALKER unit :=
  fun vm inst data inst_off visited =>
    (if isjmp inst && (inst_off + 1 + offset inst <? inst_off) then
       v ← vread_visited visited (inst_off + 1 + offset inst) ;
       if negb (v =? 0) then
         vstderr (LoopDetected inst_off) ;;
         vret (UBPF_WALK_STOP, data)
       else vret (UBPF_WALK_CONTINUE, data)
     else vret (UBPF_WALK_CONTINUE, data)).

(** [for (int i = 0; i < vm->num_insts; i++)], with [count] iterations
    left. *)
Fixpoint scan_dead (visited : list Z) (count : nat) (i : Z) (any_dead : Z) : M Z :=
  match count with
  | O => ret any_dead
  | S count =>
    (v ← read_visited visited i ;
     if v =? 0 then
       stderr (DeadInstruction i) ;;
       scan_dead visited count (i + 1) 1
     else scan_dead visited count (i + 1) any_dead)
  end.

Definition ubpf_verify_no_loops_or_dead_insts (fuel : nat) (vm : ubpf_vm) : M Z :=
  (* Populate visited and check for loops *)
  '(cmd, _, visited) ← ubpf_walk_paths vm _walker_no_loops_or_dead_insts
                         fuel tt 0 (fresh_visited vm) ;
  any_dead ← scan_dead visited (Z.to_nat (num_insts vm)) 0 0 ;
  ret (Z.lor (action_code cmd) any_dead).

(** [uses_src(inst) && (reg_init[inst.src] == 0)]: the register is read
    only when the classifier says so. *)
Definition reads_unset (inst : ebpf_inst) (reg_init : list Z) : V bool :=
  if uses_src inst then
    v ← vlift (array_get reg_init (src inst)) ;
    vret (v =? 0)
  else vret false.

(** [if (inst.opcode == EBPF_OP_CALL) reg_init[0] = 1; return CONTINUE] *)
Definition call_sets_r0 (inst : ebpf_inst) (reg_init : list Z)
  : V (ubpf_walk_action * list Z) :=
  reg_init ← (if opcode inst =? EBPF_OP_CALL
              then vlift (array_set reg_init 0 1)
              else vret reg_init) ;
  vret (UBPF_WALK_CONTINUE, reg_init).

Definition _walker_no_uninit_regs : WALKER (list Z) :=
  fun vm inst reg_init inst_off visited =>
    if ((opcode inst =? EBPF_OP_XOR_REG) || (opcode inst =? EBPF_OP_XOR64_REG))
       && (dst inst =? src inst) then
      (* Special case `xor r0, r0` *)
      reg_init ← vlift (array_set reg_init (dst inst) 1) ;
      call_sets_r0 inst reg_init
    else
      unset ← reads_unset inst reg_init ;
      if unset : bool then
        vstderr (UninitializedRegister (src inst) inst_off) ;;
        vret (UBPF_WALK_STOP, reg_init)
      else if sets_dst inst then
        reg_init ← vlift (array_set reg_init (dst inst) 1) ;
        call_sets_r0 inst reg_init
      else call_sets_r0 inst reg_init.

(** [char reg_init[16] = {0}; reg_init[1] = 1; reg_init[10] = 1;] *)
Definition reg_init_start : list Z :=
  <[10%nat := 1]> (<[1%nat := 1]> (replicate 16 0)).

Definition ubpf_verify_no_uninit_regs (fuel : nat) (vm : ubpf_vm) : M Z :=
  ubpf_walk_start vm _walker_no_uninit_regs fuel reg_init_start.

Definition ubpf_verify (fuel : nat) (vm : ubpf_vm) : M Z :=
  (r ← ubpf_verify_no_loops_or_dead_insts fuel vm ;
   if negb (r =? 0) then ret 1
   else
     r ← ubpf_verify_no_uninit_regs fuel vm ;
     if negb (r =? 0) then ret 1
     else ret 0).

End Verifier.

(** ** The earlier revision *)

(** The first revision in the source has the same [isjmp],
    [ubpf_walk_paths] and [ubpf_walk_start]; its passes differ: a walk
    that looks for loops, then a second walk with a visitor that does
    nothing, followed by the scan for dead instructions. *)
Module Rev1.
Section Verifier.

Context {hdr : ebpf_h}.

Definition _walker_no_dead_insts : WALKER unit :=
  fun vm inst data inst_off visited => vret (UBPF_WALK_CONTINUE, data).

Definition ubpf_verify_no_dead_insts (fuel : nat) (vm : ubpf_vm) : M Z :=
  '(cmd, _, visited) ← ubpf_walk_paths vm _walker_no_dead_insts
                         fuel tt 0 (fresh_visited vm) ;
  if negb (action_code cmd =? 0) then ret (action_code cmd)
  else scan_dead visited (Z.to_nat (num_insts vm)) 0 0.

Definition _walker_no_loops : WALKER unit :=
  fun vm inst data inst_off visited =>
    if isjmp inst && (inst_off + 1 + offset inst <? inst_off) then
      v ← vread_visited visited (inst_off + 1 + offset inst) ;
      if negb (v =? 0) then
        vstderr (LoopDetected inst_off) ;;
        vret (UBPF_WALK_STOP, data)
      else vret (UBPF_WALK_CONTINUE, data)
    else vret (UBPF_WALK_CONTINUE, data).

Definition ubpf_verify_no_loops (fuel : nat) (vm : ubpf_vm) : M Z :=
  ubpf_walk_start vm _walker_no_loops fuel tt.

Definition ubpf_verify (fuel : nat) (vm : ubpf_vm) : M Z :=
  r ← ubpf_verify_no_loops fuel vm ;
  if negb (r =? 0) then ret 1
  else
    r ← ubpf_verify_no_dead_insts fuel vm ;
    if negb (r =? 0) then ret 1
    else ret 0.

End Verifier.
End Rev1.

(** ** The eBPF encoding *)

(** Modelled from the spec: the header [ebpf.h], which binds the opcode
    and class names used above, is missing.  The spec names the
    instruction set as the eBPF one; these are the values of its
    encoding (class in the low three bits, source bit [0x08], operation
    in the high nibble). *)
#[global] Instance ebpf_std : ebpf_h := {|
  EBPF_CLS_MASK := 0x07;
  EBPF_CLS_LDX := 0x01;
  EBPF_CLS_ST := 0x02;
  EBPF_CLS_STX := 0x03;
  EBPF_CLS_ALU := 0x04;
  EBPF_CLS_JMP := 0x05;
  EBPF_CLS_ALU64 := 0x07;
  EBPF_SRC_REG := 0x08;
  EBPF_OP_NEG := 0x84;
  EBPF_OP_NEG64 := 0x87;
  EBPF_OP_LE := 0xd4;
  EBPF_OP_BE := 0xdc;
  EBPF_OP_LDDW := 0x18;
  EBPF_OP_JA := 0x05;
  EBPF_OP_CALL := 0x85;
  EBPF_OP_EXIT := 0x95;
  EBPF_OP_XOR_REG := 0xac;
  EBPF_OP_XOR64_REG := 0xaf
|}.

(** Opcodes that only the example programs use. *)
Definition EBPF_OP_JEQ_IMM : Z := 0x15.
Definition EBPF_OP_MOV64_REG : Z := 0xbf.
Definition EBPF_OP_MOV64_IMM : Z := 0xb7.
Definition EBPF_OP_ADD64_REG : Z := 0x0f.

(** ** The programs of the scenarios *)

(** [exit], all other fields zero. *)
Definition prog_exit : ubpf_vm :=
  mk_vm [mk_inst EBPF_OP_EXIT 0 0 0 0].

(** [jeq r1, 0, +1 ; mov r0, r1 ; exit ; mov r0, r10] *)
Definition prog_diamond : ubpf_vm :=
  mk_vm [mk_inst EBPF_OP_JEQ_IMM 1 0 1 0;
         mk_inst EBPF_OP_MOV64_REG 0 1 0 0;
         mk_inst EBPF_OP_EXIT 0 0 0 0;
         mk_inst EBPF_OP_MOV64_REG 0 10 0 0].

(** [ja -1]: a jump to itself. *)
Definition prog_self_jump : ubpf_vm :=
  mk_vm [mk_inst EBPF_OP_JA 0 0 (-1) 0].

(** [exit ; ja -1]: the self-jump is behind the exit. *)
Definition prog_dead_self_jump : ubpf_vm :=
  mk_vm [mk_inst EBPF_OP_EXIT 0 0 0 0;
         mk_inst EBPF_OP_JA 0 0 (-1) 0].

(** [ja -2]: a jump to the offset before the program. *)
Definition prog_jump_before_start : ubpf_vm :=
  mk_vm [mk_inst EBPF_OP_JA 0 0 (-2) 0].

(** [mov r0, r1 ; ja -2]: an endless loop. *)
Definition prog_loop : ubpf_vm :=
  mk_vm [mk_inst EBPF_OP_MOV64_REG 0 1 0 0;
         mk_inst EBPF_OP_JA 0 0 (-2) 0].

(** [mov r0, 0 ; exit ; mov r2, 0]: the third instruction is dead. *)
Definition prog_dead_tail : ubpf_vm :=
  mk_vm [mk_inst EBPF_OP_MOV64_IMM 0 0 0 0;
         mk_inst EBPF_OP_EXIT 0 0 0 0;
         mk_inst EBPF_OP_MOV64_IMM 2 0 0 0].

(** [add r0, r3 ; exit]: r3 is read before it is written. *)
Definition prog_uninit_read : ubpf_vm :=
  mk_vm [mk_inst EBPF_OP_ADD64_REG 0 3 0 0;
         mk_inst EBPF_OP_EXIT 0 0 0 0].

(** [xor r3, r3 ; add r0, r3 ; exit] *)
Definition prog_zero_idiom : ubpf_vm :=
  mk_vm [mk_inst EBPF_OP_XOR64_REG 3 3 0 0;
         mk_inst EBPF_OP_ADD64_REG 0 3 0 0;
         mk_inst EBPF_OP_EXIT 0 0 0 0].

(** * Vocabulary of the properties *)

(** ** Marks and traces *)

(** An offset is marked when its slot of [visited] holds a non-zero
    value. *)
Definition marked (visited : list Z) (i : Z) : Prop :=
  exists x, array_get visited i = Some x /\ x <> 0.

(** The number of offsets still unmarked: the measure of the walk. *)
Definition unvisited (visited : list Z) : nat :=
  length (filter (fun x => x = 0) visited).

(** [before e1 e2 tr]: some occurrence of [e2] in [tr] comes after an
    occurrence of [e1]. *)
Definition before {E} (e1 e2 : E) (tr : list E) : Prop :=
  exists tr1 tr2, tr = tr1 ++ e2 :: tr2 /\ e1 ∈ tr1.

(** Every slot holds 0 or 1. *)
Definition binary (visited : list Z) : Prop :=
  Forall (fun x => x = 0 \/ x = 1) visited.

(** The events of one activation up to and including the marking. *)
Definition entry_events (inst_off : Z) (es : list access) : list event :=
  Fetch inst_off :: Visit inst_off :: map Eff es ++ [Mark inst_off].

(** Every offset is entered at most once. *)
Definition enters_at_most_once (tr : list event) : Prop := NoDup (entered tr).

(** [t] is marked at the start or entered during [l], and [k] is entered
    afterwards. *)
Definition revisits (visited : list Z) (t k : Z) (l : list Z) : Prop :=
  before t k l \/ (marked visited t /\ k ∈ l).

(** ** Runs of the walker *)

Section Runs.

Context {hdr : ebpf_h} {D : Type}.
Variable vm : ubpf_vm.
Variable walk_fn : WALKER D.

(** What one activation of the walker does before it looks at the
    verdict: fetch, visitor, mark. *)
Definition activation (data : D) (inst_off : Z) (visited : list Z)
    (inst : ebpf_inst) (es : list access) (cmd : ubpf_walk_action)
    (data' : D) (visited' : list Z) : Prop :=
  array_get (insts vm) inst_off = Some inst /\
  walk_fn vm inst data inst_off visited = (es, Some (cmd, data')) /\
  array_set visited inst_off 1 = Some visited'.

Definition in_bounds (next_pc : Z) : Prop :=
  ~ (next_pc < 0 \/ next_pc > num_insts vm - 1).

Inductive phase := Walk | Fall.

(** The runs of [ubpf_walk_paths], one constructor per path through its
    body.  [walks Walk data off visited tr r]: a call at [off] emits [tr]
    and ends in [r]; [walks Fall ...]: the same for the code after the
    jump block ([if (inst_off == vm->num_insts-1) ... else ...]). *)
Inductive walks : phase -> D -> Z -> list Z -> list event ->
                  result (ubpf_walk_action * D * list Z) -> Prop :=
| walks_out_of_fuel data off visited :
    walks Walk data off visited [] OutOfFuel
| walks_fetch_fault data off visited :
    array_get (insts vm) off = None ->
    walks Walk data off visited [Fetch off] Fault
| walks_visitor_fault data off visited inst es :
    array_get (insts vm) off = Some inst ->
    walk_fn vm inst data off visited = (es, None) ->
    walks Walk data off visited (Fetch off :: Visit off :: map Eff es) Fault
| walks_mark_fault data off visited inst es cmd data' :
    array_get (insts vm) off = Some inst ->
    walk_fn vm inst data off visited = (es, Some (cmd, data')) ->
    array_set visited off 1 = None ->
    walks Walk data off visited (entry_events off es) Fault
| walks_halt data off visited inst es cmd data' visited' :
    activation data off visited inst es cmd data' visited' ->
    is_continue cmd = false ->
    walks Walk data off visited (entry_events off es) (Done (cmd, data', visited'))
| walks_exit data off visited inst es data' visited' :
    activation data off visited inst es UBPF_WALK_CONTINUE data' visited' ->
    opcode inst = EBPF_OP_EXIT ->
    walks Walk data off visited (entry_events off es)
          (Done (UBPF_WALK_CONTINUE, data', visited'))
| walks_self data off visited inst es data' visited' :
    activation data off visited inst es UBPF_WALK_CONTINUE data' visited' ->
    opcode inst <> EBPF_OP_EXIT ->
    isjmp inst = true ->
    off + 1 + offset inst = off ->
    walks Walk data off visited
          (entry_events off es ++ [Eff (Stderr (JumpToSelf off))])
          (Done (UBPF_WALK_INVALID, data', visited'))
| walks_oob data off visited inst es data' visited' next_pc :
    activation data off visited inst es UBPF_WALK_CONTINUE data' visited' ->
    opcode inst <> EBPF_OP_EXIT ->
    isjmp inst = true ->
    next_pc = off + 1 + offset inst ->
    next_pc <> off ->
    next_pc < 0 \/ next_pc > num_insts vm - 1 ->
    walks Walk data off visited
          (entry_events off es ++ [Eff (Stderr (JumpOutOfBounds off next_pc))])
          (Done (UBPF_WALK_INVALID, data', visited'))
| walks_guard_fault data off visited inst es data' visited' next_pc :
    activation data off visited inst es UBPF_WALK_CONTINUE data' visited' ->
    opcode inst <> EBPF_OP_EXIT ->
    isjmp inst = true ->
    next_pc = off + 1 + offset inst ->
    next_pc <> off ->
    in_bounds next_pc ->
    array_get visited' next_pc = None ->
    walks Walk data off visited
          (entry_events off es ++ [Eff (RdVisited next_pc)]) Fault
| walks_branch_return data off visited inst es data' visited' next_pc tr1 r1 :
    activation data off visited inst es UBPF_WALK_CONTINUE data' visited' ->
    opcode inst <> EBPF_OP_EXIT ->
    isjmp inst = true ->
    next_pc = off + 1 + offset inst ->
    next_pc <> off ->
    in_bounds next_pc ->
    array_get visited' next_pc = Some 0 ->
    walks Walk data' next_pc visited' tr1 r1 ->
    (forall d v, r1 <> Done (UBPF_WALK_CONTINUE, d, v)) ->
    walks Walk data off visited
          (entry_events off es ++
           Eff (RdVisited next_pc) :: Follow Branch next_pc :: tr1) r1
| walks_branch_fall data off visited inst es data' visited' next_pc
    tr1 data'' visited'' tr2 r :
    activation data off visited inst es UBPF_WALK_CONTINUE data' visited' ->
    opcode inst <> EBPF_OP_EXIT ->
    isjmp inst = true ->
    next_pc = off + 1 + offset inst ->
    next_pc <> off ->
    in_bounds next_pc ->
    array_get visited' next_pc = Some 0 ->
    walks Walk data' next_pc visited' tr1
          (Done (UBPF_WALK_CONTINUE, data'', visited'')) ->
    walks Fall data'' off visited'' tr2 r ->
    walks Walk data off visited
          (entry_events off es ++
           Eff (RdVisited next_pc) :: Follow Branch next_pc :: tr1 ++ tr2) r
| walks_merge data off visited inst es data' visited' next_pc v tr2 r :
    activation data off visited inst es UBPF_WALK_CONTINUE data' visited' ->
    opcode inst <> EBPF_OP_EXIT ->
    isjmp inst = true ->
    next_pc = off + 1 + offset inst ->
    next_pc <> off ->
    in_bounds next_pc ->
    array_get visited' next_pc = Some v ->
    v <> 0 ->
    walks Fall data' off visited' tr2 r ->
    walks Walk data off visited
          (entry_events off es ++ Eff (RdVisited next_pc) :: tr2) r
| walks_plain data off visited inst es data' visited' tr2 r :
    activation data off visited inst es UBPF_WALK_CONTINUE data' visited' ->
    opcode inst <> EBPF_OP_EXIT ->
    isjmp inst = false ->
    walks Fall data' off visited' tr2 r ->
    walks Walk data off visited (entry_events off es ++ tr2) r
| falls_last data off visited :
    off = num_insts vm - 1 ->
    walks Fall data off visited [] (Done (UBPF_WALK_CONTINUE, data, visited))
| falls_next data off visited tr r :
    off <> num_insts vm - 1 ->
    walks Walk data (off + 1) visited tr r ->
    walks Fall data off visited (Follow FallThrough (off + 1) :: tr) r.

(** The measure of a call: the offsets left unmarked once the call has
    marked its own, weighted so that a jump descent (one mark more) pays
    for any distance, plus the distance to the end of the program. *)
Definition walk_measure (inst_off : Z) (visited : list Z) : nat :=
  (unvisited (<[Z.to_nat inst_off := 1%Z]> visited) * S (length (insts vm))
   + Z.to_nat (num_insts vm - inst_off))%nat.

(** The budget of visitor calls of a run: the way left to the end of the
    program, plus one full pass per offset still unmarked. *)
Definition visit_budget (p : phase) (off : Z) (visited : list Z) : Z :=
  match p with
  | Walk => (num_insts vm - off)
            + num_insts vm * Z.of_nat (unvisited (<[Z.to_nat off := 1]> visited))
  | Fall => (num_insts vm - off - 1)
            + num_insts vm * Z.of_nat (unvisited visited)
  end.

End Runs.

Section Passes.

Context {hdr : ebpf_h}.

(** The walk of the loop / dead-code pass. *)
Definition loop_walk (vm : ubpf_vm) (fuel : nat)
  : M (ubpf_walk_action * unit * list Z) :=
  ubpf_walk_paths vm _walker_no_loops_or_dead_insts fuel tt 0 (fresh_visited vm).

(** The diagnostic of a jump at [k] whose target is [k] itself or lies
    at or beyond the end of the program. *)
Definition structural_diag (vm : ubpf_vm) (k : Z) (inst : ebpf_inst)
    (dg : diag) : Prop :=
  (offset inst = -1 /\ dg = JumpToSelf k) \/
  (k + 1 + offset inst > num_insts vm - 1 /\
   dg = JumpOutOfBounds k (k + 1 + offset inst)).

(** The exception set of the specification: negate-32, negate-64,
    endian-swap-little, endian-swap-big, load-64-bit-immediate,
    unconditional-jump, call. *)
Definition src_bit_exceptions : list Z :=
  [EBPF_OP_NEG; EBPF_OP_NEG64; EBPF_OP_LE; EBPF_OP_BE;
   EBPF_OP_LDDW; EBPF_OP_JA; EBPF_OP_CALL].

(** [reads_source_register] as the specification words it. *)
Definition reads_source_register (inst : ebpf_inst) : Prop :=
  opcode inst = EBPF_OP_EXIT \/
  (cls_of inst = EBPF_CLS_STX \/ cls_of inst = EBPF_CLS_LDX) \/
  ((cls_of inst = EBPF_CLS_ALU \/ cls_of inst = EBPF_CLS_ALU64 \/
    cls_of inst = EBPF_CLS_JMP) /\
   Z.land (opcode inst) EBPF_SRC_REG <> 0 /\
   opcode inst ∉ src_bit_exceptions).

(** [xor rX, rX], 32- or 64-bit. *)
Definition xor_self (inst : ebpf_inst) : Prop :=
  (opcode inst = EBPF_OP_XOR_REG \/ opcode inst = EBPF_OP_XOR64_REG) /\
  dst inst = src inst.

(** The instruction reads its source register while that register is
    unmarked, and is not the [xor] idiom. *)
Definition reads_unmarked (inst : ebpf_inst) (reg_init : list Z) : Prop :=
  ~ xor_self inst /\ uses_src inst = true /\
  array_get reg_init (src inst) = Some 0.

End Passes.

(** ** Control flow, registers and safety conditions *)

Section Flow.

Context {hdr : ebpf_h}.
Variable vm : ubpf_vm.

(** The edges the walker follows out of offset [k]: from every
    instruction but [exit], the fall-through edge unless [k] is the last
    offset, and for a jump the edge to its target. *)
Definition successor (k i : Z) : Prop :=
  exists inst,
    array_get (insts vm) k = Some inst /\
    opcode inst <> EBPF_OP_EXIT /\
    ((k <> num_insts vm - 1 /\ i = k + 1) \/
     (isjmp inst = true /\ i = k + 1 + offset inst)).

(** Offsets connected to the entry by these edges. *)
Definition reachable (i : Z) : Prop := rtc successor 0 i.

(** No jump of the program has a target below offset 0. *)
Definition no_negative_targets : Prop :=
  forall k inst,
    array_get (insts vm) k = Some inst -> isjmp inst = true ->
    0 <= k + 1 + offset inst.

(** The register fields hold what four bits can hold. *)
Definition regs_in_range : Prop :=
  forall k inst,
    array_get (insts vm) k = Some inst ->
    0 <= dst inst < 16 /\ 0 <= src inst < 16.

(** The offsets of the program the trace does not enter, in increasing
    order. *)
Definition unentered (tr : list event) : list Z :=
  filter (fun i => i ∉ entered tr) (seqZ 0 (num_insts vm)).

(** The walk of the register pass. *)
Definition reg_walk (fuel : nat) : M (ubpf_walk_action * list Z * list Z) :=
  ubpf_walk_paths vm _walker_no_uninit_regs fuel reg_init_start 0
    (fresh_visited vm).

End Flow.

(** The registers an instruction marks when the register visitor lets
    the walk continue. *)
Definition writes_register `{hdr : ebpf_h} (inst : ebpf_inst) (r : Z) : Prop :=
  (r = dst inst /\ (xor_self inst \/ sets_dst inst = true)) \/
  (r = 0 /\ opcode inst = EBPF_OP_CALL).

(** The instruction is subject to the check of its source register. *)
Definition checked_read `{hdr : ebpf_h} (inst : ebpf_inst) : Prop :=
  ~ xor_self inst /\ uses_src inst = true.

(** ** Verdicts and diagnostics *)

(** What a visitor prints. *)
Definition stderr_of (es : list access) : list diag :=
  omap (fun a => match a with Stderr d => Some d | _ => None end) es.

(** A visitor that prints one diagnostic, of kind [P], exactly when it
    returns [UBPF_WALK_STOP], and that never returns
    [UBPF_WALK_INVALID]. *)
Definition visitor_reports {D} (P : diag -> Prop) (vm : ubpf_vm)
    (walk_fn : WALKER D) : Prop :=
  forall inst data off visited,
    match walk_fn vm inst data off visited with
    | (es, Some (UBPF_WALK_STOP, _)) => exists dg, stderr_of es = [dg] /\ P dg
    | (es, Some (UBPF_WALK_INVALID, _)) => False
    | (es, _) => stderr_of es = []
    end.

(** What a walk has printed when it ends in [r]. *)
Definition verdict_diags {A B} (P : diag -> Prop)
    (r : result (ubpf_walk_action * A * B)) (ds : list diag) : Prop :=
  match r with
  | Done (UBPF_WALK_STOP, _, _) => exists dg, ds = [dg] /\ P dg
  | Done (UBPF_WALK_INVALID, _, _) =>
      exists k, ds = [JumpToSelf k] \/ exists t, ds = [JumpOutOfBounds k t]
  | Done (UBPF_WALK_CONTINUE, _, _) | OutOfFuel => ds = []
  | Fault => True
  end.

(** The same for the code a pass returns. *)
Definition code_diags (P : diag -> Prop) (r : Z) (ds : list diag) : Prop :=
  (r = 0 /\ ds = []) \/
  (r = 1 /\ exists dg, ds = [dg] /\ P dg) \/
  (r = 2 /\ exists k, ds = [JumpToSelf k] \/ exists t, ds = [JumpOutOfBounds k t]).

Definition is_loop_diag (dg : diag) : Prop := exists k, dg = LoopDetected k.

Definition is_uninit_diag (dg : diag) : Prop :=
  exists r off, dg = UninitializedRegister r off.

(** ** Memory safety *)

(** On an instruction of the program, a [visited] array of the length of
    the program and data satisfying [I], the visitor stays inside the
    arrays it is given and returns data satisfying [I]. *)
Definition visitor_safe {D} (I : D -> Prop) (vm : ubpf_vm)
    (walk_fn : WALKER D) : Prop :=
  forall inst data off visited,
    array_get (insts vm) off = Some inst ->
    length visited = length (insts vm) ->
    I data ->
    exists es cmd data',
      walk_fn vm inst data off visited = (es, Some (cmd, data')) /\ I data'.

(** The register bitmap has its 16 slots. *)
Definition reg_file (reg_init : list Z) : Prop := length reg_init = 16%nat.

(** ** The register bitmap *)

(** Some instruction at an offset of [l] writes register [x]. *)
Definition written_by (vm : ubpf_vm) `{hdr : ebpf_h} (l : list Z) (x : Z) : Prop :=
  exists k inst,
    k ∈ l /\ array_get (insts vm) k = Some inst /\ writes_register inst x.

(** What a walk that entered the offsets [l] has made of the bitmap
    [reg]: it only adds marks, each added mark is a register written at
    an entered offset, and unless the walk was stopped every such
    register is marked and every checked source register is. *)
Definition reg_summary (vm : ubpf_vm) `{hdr : ebpf_h} (reg : list Z) (l : list Z)
    (cmd : ubpf_walk_action) (d : list Z) : Prop :=
  reg_file d /\
  (forall x, marked reg x -> marked d x) /\
  (forall x, marked d x -> marked reg x \/ written_by vm l x) /\
  (cmd <> UBPF_WALK_STOP ->
   (forall x, written_by vm l x -> marked d x) /\
   (forall k inst, k ∈ l -> array_get (insts vm) k = Some inst ->
      checked_read inst -> marked d (src inst))).

(** * Properties *)

(** ** Arrays *)

Lemma array_get_Some {A} (a : list A) i x :
  array_get a i = Some x -> 0 <= i < Z.of_nat (length a).
Proof.
  unfold array_get. destruct (Z.ltb_spec i 0); [done|].
  intros Hx%lookup_lt_Some. lia.
Qed.

Lemma array_get_in_range {A} (a : list A) i :
  0 <= i < Z.of_nat (length a) -> is_Some (array_get a i).
Proof.
  intros. unfold array_get. destruct (Z.ltb_spec i 0); [lia|].
  apply lookup_lt_is_Some. lia.
Qed.

Lemma array_set_Some {A} (a a' : list A) i x :
  array_set a i x = Some a' ->
  0 <= i < Z.of_nat (length a) /\ a' = <[Z.to_nat i := x]> a.
Proof.
  unfold array_set.
  destruct (Z.leb_spec 0 i), (Z.ltb_spec i (Z.of_nat (length a)));
    simpl; intros ?; simplify_eq; auto with lia.
Qed.

Lemma array_set_in_range {A} (a : list A) i x :
  0 <= i < Z.of_nat (length a) ->
  array_set a i x = Some (<[Z.to_nat i := x]> a).
Proof.
  intros. unfold array_set.
  destruct (Z.leb_spec 0 i), (Z.ltb_spec i (Z.of_nat (length a))); simpl; auto with lia.
Qed.

Lemma array_set_length {A} (a a' : list A) i x :
  array_set a i x = Some a' -> length a' = length a.
Proof. intros [_ ->]%array_set_Some. apply length_insert. Qed.

Lemma array_get_set_eq {A} (a a' : list A) i x :
  array_set a i x = Some a' -> array_get a' i = Some x.
Proof.
  intros [Hi ->]%array_set_Some. unfold array_get.
  destruct (Z.ltb_spec i 0); [lia|].
  apply list_lookup_insert_eq. lia.
Qed.

Lemma array_get_set_ne {A} (a a' : list A) i j x :
  array_set a i x = Some a' -> i <> j -> array_get a' j = array_get a j.
Proof.
  intros [Hi ->]%array_set_Some Hne. unfold array_get.
  destruct (Z.ltb_spec j 0); [done|].
  apply list_lookup_insert_ne. lia.
Qed.

Lemma marked_set visited visited' i :
  array_set visited i 1 = Some visited' -> marked visited' i.
Proof. intros H. exists 1. split; [by eapply array_get_set_eq | done]. Qed.

Lemma marked_set_mono visited visited' i j :
  array_set visited i 1 = Some visited' -> marked visited j -> marked visited' j.
Proof.
  intros H Hj. destruct (decide (i = j)) as [<-|Hne]; [by eapply marked_set|].
  destruct Hj as (x & Hx & ?). exists x. split; [|done].
  by rewrite (array_get_set_ne _ _ _ _ _ H Hne).
Qed.

Lemma marked_set_inv visited visited' i j :
  array_set visited i 1 = Some visited' -> marked visited' j ->
  j = i \/ marked visited j.
Proof.
  intros H Hj. destruct (decide (i = j)) as [<-|Hne]; [by left|right].
  destruct Hj as (x & Hx & ?). exists x. split; [|done].
  by rewrite <-(array_get_set_ne _ _ _ _ _ H Hne).
Qed.

Lemma marked_zero visited i : array_get visited i = Some 0 -> ~ marked visited i.
Proof. intros H (x & Hx & ?). congruence. Qed.

Lemma fresh_visited_unmarked vm i : ~ marked (fresh_visited vm) i.
Proof.
  intros (x & Hx & Hne). unfold array_get, fresh_visited in Hx.
  destruct (i <? 0); [done|].
  apply lookup_replicate in Hx as [-> _]. done.
Qed.

Lemma unmarked_in_range visited i :
  0 <= i < Z.of_nat (length visited) -> ~ marked visited i ->
  array_get visited i = Some 0.
Proof.
  intros Hi Hm. destruct (array_get_in_range visited i Hi) as [x Hx].
  destruct (decide (x = 0)) as [->|Hne]; [done|].
  destruct Hm. by exists x.
Qed.

Lemma unvisited_insert_le visited (i : nat) :
  (unvisited (<[i := 1%Z]> visited) <= unvisited visited)%nat.
Proof.
  unfold unvisited. revert i. induction visited as [|x l IH]; intros [|i]; simpl; auto.
  - rewrite !filter_cons. repeat case_decide; simpl; lia.
  - rewrite !filter_cons. specialize (IH i). case_decide; simpl; lia.
Qed.

Lemma unvisited_insert_lt visited (i : nat) :
  visited !! i = Some 0 ->
  (unvisited (<[i := 1%Z]> visited) < unvisited visited)%nat.
Proof.
  unfold unvisited. revert i. induction visited as [|x l IH]; intros [|i]; simpl; try done.
  - intros [= ->]. rewrite !filter_cons. repeat case_decide; simpl; try done; lia.
  - intros H. specialize (IH i H). rewrite !filter_cons. case_decide; simpl; lia.
Qed.

Lemma unvisited_replicate n : unvisited (replicate n 0) = n.
Proof.
  unfold unvisited. induction n; simpl; [done|]. by f_equal.
Qed.

(** ** Traces *)

Lemma before_nil {E} (e1 e2 : E) : ~ before e1 e2 [].
Proof. intros (tr1 & tr2 & H & _). by destruct tr1. Qed.

Lemma before_cons {E} (e1 e2 e : E) tr :
  before e1 e2 (e :: tr) <-> before e1 e2 tr \/ (e = e1 /\ e2 ∈ tr).
Proof.
  split.
  - intros (tr1 & tr2 & H & Hin). destruct tr1 as [|x tr1]; [by apply elem_of_nil in Hin|].
    simplify_eq/=. apply elem_of_cons in Hin as [->|Hin].
    + right. split; [done|]. set_solver.
    + left. by exists tr1, tr2.
  - intros [(tr1 & tr2 & -> & Hin)|[-> Hin]].
    + exists (e :: tr1), tr2. split; [done|]. set_solver.
    + apply list_elem_of_split in Hin as (l1 & l2 & ->).
      exists (e1 :: l1), l2. split; [done|]. set_solver.
Qed.

Lemma before_app {E} (e1 e2 : E) tr tr' :
  before e1 e2 (tr ++ tr') <->
  before e1 e2 tr \/ before e1 e2 tr' \/ (e1 ∈ tr /\ e2 ∈ tr').
Proof.
  induction tr as [|e tr IH]; simpl.
  - split; [auto|]. intros [[]%before_nil|[?|[[]%elem_of_nil _]]]. done.
  - rewrite !before_cons, IH, elem_of_app, elem_of_cons.
    intuition (auto; congruence).
Qed.

Lemma before_elem_of {E} (e1 e2 : E) tr : before e1 e2 tr -> e1 ∈ tr /\ e2 ∈ tr.
Proof. intros (tr1 & tr2 & -> & Hin). set_solver. Qed.

Lemma elem_of_entered tr i : i ∈ entered tr <-> Visit i ∈ tr.
Proof.
  unfold entered. rewrite list_elem_of_omap. split.
  - intros (e & He & Hi). destruct e; simplify_eq. done.
  - intros H. exists (Visit i). done.
Qed.

Lemma elem_of_diagnostics tr d : d ∈ diagnostics tr <-> Eff (Stderr d) ∈ tr.
Proof.
  unfold diagnostics. rewrite list_elem_of_omap. split.
  - intros (e & He & Hi). destruct e as [| |[]| |]; simplify_eq. done.
  - intros H. exists (Eff (Stderr d)). done.
Qed.

Lemma entered_app tr tr' : entered (tr ++ tr') = entered tr ++ entered tr'.
Proof. apply omap_app. Qed.

Lemma entered_effects (es : list access) : entered (map Eff es) = [].
Proof. induction es; [done|]. cbn. done. Qed.

Lemma entered_cons_eff a tr : entered (Eff a :: tr) = entered tr.
Proof. done. Qed.

Lemma entered_cons_follow e i tr : entered (Follow e i :: tr) = entered tr.
Proof. done. Qed.

Lemma entered_visitor_fault off (es : list access) :
  entered (Fetch off :: Visit off :: map Eff es) = [off].
Proof. cbn. by rewrite entered_effects. Qed.

Lemma before_entered i j tr :
  before (Visit i) (Visit j) tr -> before i j (entered tr).
Proof.
  intros (tr1 & tr2 & -> & Hin). exists (entered tr1), (entered tr2).
  split; [by rewrite entered_app|]. by apply elem_of_entered.
Qed.

(** ** The monad *)

Lemma trace_bind {A B} (m : M A) (f : A -> M B) :
  trace (m ≫= f) =
  trace m ++ match outcome m with Done a => trace (f a) | _ => [] end.
Proof.
  destruct m as [tr [a| |]]; unfold mbind, M_bind, bind, trace, outcome; simpl.
  - by destruct (f a).
  - by rewrite app_nil_r.
  - by rewrite app_nil_r.
Qed.

Lemma outcome_bind {A B} (m : M A) (f : A -> M B) :
  outcome (m ≫= f) =
  match outcome m with
  | Done a => outcome (f a)
  | Fault => Fault
  | OutOfFuel => OutOfFuel
  end.
Proof.
  destruct m as [tr [a| |]]; unfold mbind, M_bind, bind, trace, outcome; simpl; auto.
  by destruct (f a).
Qed.

(** ** The shape of a walk *)

Lemma entry_events_app off es tr :
  entry_events off es ++ tr = Fetch off :: Visit off :: map Eff es ++ Mark off :: tr.
Proof. unfold entry_events. simpl. by rewrite <-app_assoc. Qed.

Lemma elem_of_entry_events e off es :
  e ∈ entry_events off es <->
  e = Fetch off \/ e = Visit off \/ e = Mark off \/ exists a, e = Eff a /\ a ∈ es.
Proof.
  unfold entry_events.
  rewrite !elem_of_cons, elem_of_app, list_elem_of_fmap, list_elem_of_singleton.
  naive_solver.
Qed.

Lemma entered_entry_events off es : entered (entry_events off es) = [off].
Proof.
  unfold entry_events. cbn. by rewrite entered_app, entered_effects.
Qed.

Lemma before_entry_events_follow e ed t off es :
  before e (Follow ed t) (entry_events off es) <-> False.
Proof.
  split; [|done]. intros [_ H]%before_elem_of.
  apply elem_of_entry_events in H. naive_solver.
Qed.

Lemma before_effects_follow e ed t (es : list access) :
  before e (Follow ed t) (map Eff es) <-> False.
Proof.
  split; [|done]. intros [_ H]%before_elem_of.
  apply list_elem_of_fmap in H. naive_solver.
Qed.

Lemma before_nil_iff {E} (e1 e2 : E) : before e1 e2 [] <-> False.
Proof. split; [apply before_nil|done]. Qed.

Ltac unfold_elem_of H :=
  rewrite ?elem_of_app, ?elem_of_entry_events, ?elem_of_cons,
    ?elem_of_app, ?elem_of_nil, ?list_elem_of_fmap in H.

Section WalkFacts.

Context {hdr : ebpf_h} {D : Type}.
Variable vm : ubpf_vm.
Variable walk_fn : WALKER D.

#[local] Abbreviation activation := (activation vm walk_fn).
#[local] Abbreviation in_bounds := (in_bounds vm).
#[local] Abbreviation walks := (walks vm walk_fn).
#[local] Abbreviation walk_measure := (walk_measure vm).

Lemma walks_trace_eq p data off visited tr tr' r :
  walks p data off visited tr r -> tr = tr' -> walks p data off visited tr' r.
Proof. by intros ? <-. Qed.

Local Ltac run_with c :=
  eapply walks_trace_eq;
  [eapply c; eauto; first [done | lia]
  |rewrite ?app_nil_r, ?entry_events_app; unfold entry_events; done].

Lemma ubpf_walk_paths_walks fuel data off visited :
  walks Walk data off visited
        (trace (ubpf_walk_paths vm walk_fn fuel data off visited))
        (outcome (ubpf_walk_paths vm walk_fn fuel data off visited)).
Proof.
  revert data off visited. induction fuel as [|fuel IH]; intros data off visited.
  { apply walks_out_of_fuel. }
  cbn [ubpf_walk_paths]. unfold fetch, mark, stderr, read_visited, vread_visited.
  cbn.
  destruct (array_get (insts vm) off) as [inst|] eqn:Hinst; cbn;
    [|by apply walks_fetch_fault].
  destruct (walk_fn vm inst data off visited) as [es [[cmd data']|]] eqn:Hv; cbn;
    [|by eapply walks_visitor_fault].
  destruct (array_set visited off 1) as [visited'|] eqn:Hset; cbn.
  2:{ by eapply walks_mark_fault. }
  assert (Hact : activation data off visited inst es cmd data' visited') by done.
  destruct cmd; cbn.
  2,3: by run_with (walks_halt vm walk_fn).
  assert (Hfall : forall d v,
    walks Fall d off v
      (trace (if off =? num_insts vm - 1
              then ret (UBPF_WALK_CONTINUE, d, v)
              else let '(tr', r) := ubpf_walk_paths vm walk_fn fuel d (off + 1) v
                   in (Follow FallThrough (off + 1) :: tr', r)))
      (outcome (if off =? num_insts vm - 1
                then ret (UBPF_WALK_CONTINUE, d, v)
                else let '(tr', r) := ubpf_walk_paths vm walk_fn fuel d (off + 1) v
                     in (Follow FallThrough (off + 1) :: tr', r)))).
  { intros d v. destruct (Z.eqb_spec off (num_insts vm - 1)); cbn.
    - by apply falls_last.
    - specialize (IH d (off + 1) v).
      destruct (ubpf_walk_paths vm walk_fn fuel d (off + 1) v); cbn.
      by apply falls_next. }
  destruct (Z.eqb_spec (opcode inst) EBPF_OP_EXIT) as [Hexit|Hexit]; cbn.
  { by run_with (walks_exit vm walk_fn). }
  destruct (isjmp inst) eqn:Hjmp.
  2:{ specialize (Hfall data' visited').
      destruct (if off =? num_insts vm - 1 then _ else _) as [tr2 r2]; cbn in *.
      by run_with (walks_plain vm walk_fn). }
  destruct (Z.eqb_spec (off + 1 + offset inst) off) as [Hself|Hself]; cbn.
  { by run_with (walks_self vm walk_fn). }
  destruct (Z.ltb_spec (off + 1 + offset inst) 0) as [Hlo|Hlo]; cbn.
  { by run_with (walks_oob vm walk_fn). }
  destruct (Z.gtb_spec (off + 1 + offset inst) (num_insts vm - 1)) as [Hhi|Hhi]; cbn.
  { by run_with (walks_oob vm walk_fn). }
  assert (Hin : in_bounds (off + 1 + offset inst)) by (unfold in_bounds; lia).
  destruct (array_get visited' (off + 1 + offset inst)) as [v|] eqn:Hget; cbn.
  2:{ by run_with (walks_guard_fault vm walk_fn). }
  destruct (Z.eqb_spec v 0) as [->|Hv0].
  2:{ specialize (Hfall data' visited').
      destruct (if off =? num_insts vm - 1 then _ else _) as [tr2 r2]; cbn in *.
      by run_with (walks_merge vm walk_fn). }
  specialize (IH data' (off + 1 + offset inst) visited').
  destruct (ubpf_walk_paths vm walk_fn fuel data' (off + 1 + offset inst) visited')
    as [tr1 [[[cmd1 data1] visited1]| |]]; cbn in *.
  2,3: by run_with (walks_branch_return vm walk_fn).
  destruct cmd1; cbn.
  2,3: by run_with (walks_branch_return vm walk_fn).
  specialize (Hfall data1 visited1).
  destruct (if off =? num_insts vm - 1 then _ else _) as [tr2 r2]; cbn in *.
  by run_with (walks_branch_fall vm walk_fn).
Qed.

Lemma activation_visited data off visited inst es cmd data' visited' :
  activation data off visited inst es cmd data' visited' ->
  length visited' = length visited /\
  (unvisited visited' <= unvisited visited)%nat /\
  marked visited' off /\
  (forall i, marked visited i -> marked visited' i) /\
  0 <= off < num_insts vm.
Proof.
  intros (Hinst & _ & Hset). split_and!.
  - by eapply array_set_length.
  - apply array_set_Some in Hset as [_ ->]. apply unvisited_insert_le.
  - by eapply marked_set.
  - intros i. by eapply marked_set_mono.
  - apply array_get_Some in Hinst. lia.
  - apply array_get_Some in Hinst. unfold num_insts. lia.
Qed.

(** The walker only ever sets marks: what was marked stays marked, every
    offset it entered is marked when it returns, and the array keeps its
    length. *)
Lemma walks_visited p data off visited tr r :
  walks p data off visited tr r ->
  forall cmd d v', r = Done (cmd, d, v') ->
  length v' = length visited /\
  (unvisited v' <= unvisited visited)%nat /\
  (forall i, marked visited i \/ Visit i ∈ tr -> marked v' i).
Proof.
  induction 1; intros c d' v' Hr; try discriminate;
    try match goal with
        | H : activation _ _ _ _ _ _ _ _ |- _ =>
            apply activation_visited in H as (Hlen & Hun & Hoff & Hmono & _)
        end.
  all: repeat match goal with
         | IH : forall _ _ _, Done _ = Done _ -> _ |- _ =>
             destruct (IH _ _ _ eq_refl) as (? & ? & ?); clear IH
         | IH : forall _ _ _, ?r = Done _ -> _, Hr : ?r = Done _ |- _ =>
             destruct (IH _ _ _ Hr) as (? & ? & ?); clear IH
         end.
  all: simplify_eq; (split; [congruence|split; [lia|]]).
  all: intros i Hi.
  all: rewrite ?elem_of_app, ?elem_of_entry_events, ?elem_of_cons,
         ?elem_of_app, ?elem_of_nil in Hi.
  all: naive_solver.
Qed.

(** Conversely, a mark that is there at the end was there at the start
    or belongs to an offset the walk entered. *)
Lemma walks_marked_inv p data off visited tr r :
  walks p data off visited tr r ->
  forall cmd d v', r = Done (cmd, d, v') ->
  forall i, marked v' i -> marked visited i \/ Visit i ∈ tr.
Proof.
  induction 1; intros c d' v' Hr i Hi; try discriminate;
    try match goal with
        | H : activation _ _ _ _ _ _ _ _ |- _ =>
            destruct H as (_ & _ & Hset);
            pose proof (fun j => marked_set_inv _ _ _ j Hset) as Hinv
        end.
  all: repeat match goal with
         | IH : forall _ _ _, Done _ = Done _ -> _ |- _ =>
             specialize (IH _ _ _ eq_refl)
         | IH : forall _ _ _, ?r = Done _ -> _, Hr : ?r = Done _ |- _ =>
             specialize (IH _ _ _ Hr)
         end.
  all: simplify_eq.
  all: repeat match goal with
         | H : forall j, marked ?v j -> _, Hi : marked ?v _ |- _ =>
             apply H in Hi; destruct Hi as [Hi|Hi]
         end.
  all: first
         [ by left
         | right; subst;
           rewrite ?elem_of_app, ?elem_of_entry_events, ?elem_of_cons, ?elem_of_app;
           tauto ].
Qed.

(** Every instruction fetch of a walk that starts inside the program is
    inside the program. *)
Lemma walks_fetch_in_range p data off visited tr r :
  walks p data off visited tr r ->
  0 <= off < num_insts vm ->
  forall i, Fetch i ∈ tr -> 0 <= i < num_insts vm.
Proof.
  induction 1; intros Hoff i Hi.
  all: repeat match goal with
         | IH : 0 <= _ < _ -> _ |- _ =>
             specialize (IH ltac:(unfold in_bounds in *; lia))
         end.
  all: unfold_elem_of Hi.
  all: naive_solver.
Qed.

(** A jump edge is only followed into an offset that is unmarked and
    that the walk has not entered so far. *)
Lemma walks_branch_fresh p data off visited tr r :
  walks p data off visited tr r ->
  forall t,
    (Follow Branch t ∈ tr -> ~ marked visited t) /\
    ~ before (Visit t) (Follow Branch t) tr.
Proof.
  induction 1; intros t.
  all: try match goal with
         | H : activation _ _ _ _ _ _ _ _ |- _ =>
             pose proof (activation_visited _ _ _ _ _ _ _ _ H)
               as (Hlen & Hun & Hoff & Hmono & _)
         end.
  all: repeat match goal with
         | H : walks _ _ _ _ _ (Done _) |- _ =>
             pose proof (walks_visited _ _ _ _ _ _ H _ _ _ eq_refl) as (_ & _ & ?);
             revert H
         end; intros.
  all: repeat match goal with
         | IH : forall t, (_ -> ~ marked _ _) /\ _ |- _ =>
             destruct (IH t) as [? ?]; destruct (IH off) as [? ?]; clear IH
         end.
  all: try match goal with
         | H : array_get _ _ = Some 0 |- _ => apply marked_zero in H
         end.
  all: rewrite ?before_app, ?before_cons, ?before_app,
         ?before_entry_events_follow, ?before_effects_follow, ?before_nil_iff.
  all: split; [intros Hi; unfold_elem_of Hi|intros Hb; unfold_elem_of Hb].
  all: naive_solver.
Qed.

(** *** Termination *)

Lemma walk_measure_branch off next_pc visited visited' :
  0 <= off < num_insts vm ->
  array_set visited off 1 = Some visited' ->
  array_get visited' next_pc = Some 0 ->
  (walk_measure next_pc visited' < walk_measure off visited)%nat.
Proof.
  intros Hoff [_ ->]%array_set_Some Hget. unfold walk_measure.
  pose proof (array_get_Some _ _ _ Hget) as Hnp.
  unfold array_get in Hget. destruct (next_pc <? 0); [done|].
  apply unvisited_insert_lt in Hget. unfold num_insts in *. nia.
Qed.

Lemma walk_measure_fall off visited visited' visited'' :
  0 <= off < num_insts vm ->
  off <> num_insts vm - 1 ->
  array_set visited off 1 = Some visited' ->
  (unvisited visited'' <= unvisited visited')%nat ->
  (walk_measure (off + 1) visited'' < walk_measure off visited)%nat.
Proof.
  intros Hoff Hlast [_ ->]%array_set_Some Hle. unfold walk_measure.
  pose proof (unvisited_insert_le visited'' (Z.to_nat (off + 1))).
  unfold num_insts in *. nia.
Qed.

Lemma walk_measure_start :
  1 <= num_insts vm ->
  (walk_measure 0 (fresh_visited vm)
   < Z.to_nat (num_insts vm * (num_insts vm + 1)))%nat.
Proof.
  intros Hn. unfold walk_measure, fresh_visited.
  set (N := Z.to_nat (num_insts vm)).
  assert (Hlt : (unvisited (<[Z.to_nat 0 := 1%Z]> (replicate N 0%Z)) < N)%nat).
  { eapply Nat.lt_le_trans; [apply unvisited_insert_lt|].
    - apply lookup_replicate. split; [done|lia].
    - by rewrite unvisited_replicate. }
  unfold num_insts in *. nia.
Qed.

Lemma ubpf_walk_paths_unvisited fuel data off visited cmd d v :
  outcome (ubpf_walk_paths vm walk_fn fuel data off visited) = Done (cmd, d, v) ->
  (unvisited v <= unvisited visited)%nat.
Proof.
  intros Hr. pose proof (ubpf_walk_paths_walks fuel data off visited) as Hrun.
  by destruct (walks_visited _ _ _ _ _ _ Hrun _ _ _ Hr) as (_ & ? & _).
Qed.

(** Fuel above the measure is never used up. *)
Lemma ubpf_walk_paths_fuel fuel data off visited :
  (walk_measure off visited < fuel)%nat ->
  outcome (ubpf_walk_paths vm walk_fn fuel data off visited) <> OutOfFuel.
Proof.
  revert data off visited.
  induction fuel as [|fuel IH]; intros data off visited Hfuel; [lia|].
  cbn [ubpf_walk_paths]. unfold fetch, mark, stderr, read_visited, vread_visited.
  cbn.
  destruct (array_get (insts vm) off) as [inst|] eqn:Hinst; cbn; [|done].
  apply array_get_Some in Hinst. fold (num_insts vm) in Hinst.
  destruct (walk_fn vm inst data off visited) as [es [[cmd data']|]]; cbn; [|done].
  destruct (array_set visited off 1) as [visited'|] eqn:Hset; cbn; [|done].
  destruct cmd; cbn; [|done..].
  assert (Hfall : forall d v,
    (unvisited v <= unvisited visited')%nat ->
    outcome (if off =? num_insts vm - 1
             then ret (UBPF_WALK_CONTINUE, d, v)
             else let '(tr', r) := ubpf_walk_paths vm walk_fn fuel d (off + 1) v
                  in (Follow FallThrough (off + 1) :: tr', r)) <> OutOfFuel).
  { intros d v Hle. destruct (Z.eqb_spec off (num_insts vm - 1)); cbn; [done|].
    pose proof (walk_measure_fall _ _ _ _ Hinst n Hset Hle).
    specialize (IH d (off + 1) v ltac:(lia)).
    by destruct (ubpf_walk_paths vm walk_fn fuel d (off + 1) v). }
  destruct (opcode inst =? EBPF_OP_EXIT); cbn; [done|].
  destruct (isjmp inst).
  2:{ specialize (Hfall data' visited' ltac:(lia)).
      by destruct (if off =? num_insts vm - 1 then _ else _). }
  destruct (off + 1 + offset inst =? off); cbn; [done|].
  destruct ((off + 1 + offset inst <? 0) || (off + 1 + offset inst >? num_insts vm - 1));
    cbn; [done|].
  destruct (array_get visited' (off + 1 + offset inst)) as [v|] eqn:Hget; cbn; [|done].
  destruct (Z.eqb_spec v 0) as [->|Hv0].
  2:{ specialize (Hfall data' visited' ltac:(lia)).
      by destruct (if off =? num_insts vm - 1 then _ else _). }
  pose proof (walk_measure_branch _ _ _ _ Hinst Hset Hget).
  specialize (IH data' (off + 1 + offset inst) visited' ltac:(lia)).
  pose proof (ubpf_walk_paths_unvisited fuel data' (off + 1 + offset inst) visited')
    as Hun.
  destruct (ubpf_walk_paths vm walk_fn fuel data' (off + 1 + offset inst) visited')
    as [tr1 [[[cmd1 data1] visited1]| |]]; cbn in *; [|done..].
  destruct cmd1; cbn; [|done..].
  specialize (Hfall data1 visited1 ltac:(by eapply Hun)).
  by destruct (if off =? num_insts vm - 1 then _ else _).
Qed.

(** Once a run has enough fuel, more fuel changes nothing. *)
Lemma ubpf_walk_paths_fuel_step fuel1 fuel2 :
  (forall data off visited,
     outcome (ubpf_walk_paths vm walk_fn fuel2 data off visited) <> OutOfFuel ->
     ubpf_walk_paths vm walk_fn fuel1 data off visited =
     ubpf_walk_paths vm walk_fn fuel2 data off visited) ->
  forall data off visited,
    outcome (ubpf_walk_paths vm walk_fn (S fuel2) data off visited) <> OutOfFuel ->
    ubpf_walk_paths vm walk_fn (S fuel1) data off visited =
    ubpf_walk_paths vm walk_fn (S fuel2) data off visited.
Proof.
  intros Hagree data off visited.
  cbn [ubpf_walk_paths]. unfold fetch, mark, stderr, read_visited, vread_visited.
  cbn.
  destruct (array_get (insts vm) off) as [inst|]; cbn; [|done].
  destruct (walk_fn vm inst data off visited) as [es [[cmd data']|]]; cbn; [|done].
  destruct (array_set visited off 1) as [visited'|]; cbn; [|done].
  destruct cmd; cbn; [|done..].
  assert (Hfall : forall d v,
    outcome (if off =? num_insts vm - 1
             then ret (UBPF_WALK_CONTINUE, d, v)
             else let '(tr', r) := ubpf_walk_paths vm walk_fn fuel2 d (off + 1) v
                  in (Follow FallThrough (off + 1) :: tr', r)) <> OutOfFuel ->
    (if off =? num_insts vm - 1
     then ret (UBPF_WALK_CONTINUE, d, v)
     else let '(tr', r) := ubpf_walk_paths vm walk_fn fuel1 d (off + 1) v
          in (Follow FallThrough (off + 1) :: tr', r)) =
    (if off =? num_insts vm - 1
     then ret (UBPF_WALK_CONTINUE, d, v)
     else let '(tr', r) := ubpf_walk_paths vm walk_fn fuel2 d (off + 1) v
          in (Follow FallThrough (off + 1) :: tr', r))).
  { intros d v. destruct (off =? num_insts vm - 1); [done|].
    specialize (Hagree d (off + 1) v).
    destruct (ubpf_walk_paths vm walk_fn fuel2 d (off + 1) v) as [tr2 r2]; cbn in *.
    intros Hr. by rewrite Hagree. }
  destruct (opcode inst =? EBPF_OP_EXIT); cbn; [done|].
  destruct (isjmp inst).
  2:{ specialize (Hfall data' visited').
      destruct (if off =? num_insts vm - 1 then _ else _) as [tr2 r2]; cbn in *.
      intros Hr. by rewrite Hfall. }
  destruct (off + 1 + offset inst =? off); cbn; [done|].
  destruct ((off + 1 + offset inst <? 0) || (off + 1 + offset inst >? num_insts vm - 1));
    cbn; [done|].
  destruct (array_get visited' (off + 1 + offset inst)) as [v|]; cbn; [|done].
  destruct (v =? 0).
  2:{ specialize (Hfall data' visited').
      destruct (if off =? num_insts vm - 1 then _ else _) as [tr2 r2]; cbn in *.
      intros Hr. by rewrite Hfall. }
  specialize (Hagree data' (off + 1 + offset inst) visited').
  destruct (ubpf_walk_paths vm walk_fn fuel2 data' (off + 1 + offset inst) visited')
    as [tr1 [[[cmd1 data1] visited1]| |]]; cbn in *.
  2,3: intros Hr; by rewrite Hagree.
  rewrite Hagree by done. cbn.
  destruct cmd1; cbn; [|done..].
  specialize (Hfall data1 visited1).
  destruct (if off =? num_insts vm - 1 then _ else _) as [tr2 r2]; cbn in *.
  intros Hr. by rewrite Hfall.
Qed.

Lemma ubpf_walk_paths_fuel_S fuel data off visited :
  outcome (ubpf_walk_paths vm walk_fn fuel data off visited) <> OutOfFuel ->
  ubpf_walk_paths vm walk_fn (S fuel) data off visited =
  ubpf_walk_paths vm walk_fn fuel data off visited.
Proof.
  revert data off visited. induction fuel as [|fuel IH]; [done|].
  by apply ubpf_walk_paths_fuel_step.
Qed.

Lemma ubpf_walk_paths_fuel_le fuel fuel' data off visited :
  (fuel <= fuel')%nat ->
  outcome (ubpf_walk_paths vm walk_fn fuel data off visited) <> OutOfFuel ->
  ubpf_walk_paths vm walk_fn fuel' data off visited =
  ubpf_walk_paths vm walk_fn fuel data off visited.
Proof.
  intros Hle Hr. induction Hle as [|fuel' Hle IH]; [done|].
  rewrite ubpf_walk_paths_fuel_S; [done|by rewrite IH].
Qed.

End WalkFacts.

(** ** The loop / dead-code pass *)

Section LoopPass.

Context {hdr : ebpf_h}.
Variable vm : ubpf_vm.

#[local] Abbreviation loop_walks := (walks vm _walker_no_loops_or_dead_insts).
#[local] Abbreviation loop_walk := (loop_walk vm).
#[local] Abbreviation structural_diag := (structural_diag vm).

Lemma loop_visitor_backward inst d off visited :
  isjmp inst = true ->
  off + 1 + offset inst < off ->
  marked visited (off + 1 + offset inst) ->
  _walker_no_loops_or_dead_insts vm inst d off visited =
    ([RdVisited (off + 1 + offset inst); Stderr (LoopDetected off)],
     Some (UBPF_WALK_STOP, d)).
Proof.
  intros Hj Hlt (x & Hx & Hne). unfold _walker_no_loops_or_dead_insts.
  rewrite Hj. destruct (Z.ltb_spec (off + 1 + offset inst) off); [|lia].
  cbn. rewrite Hx. cbn. destruct (Z.eqb_spec x 0); done.
Qed.

Lemma loop_visitor_forward inst d off visited :
  off <= off + 1 + offset inst ->
  _walker_no_loops_or_dead_insts vm inst d off visited =
    ([], Some (UBPF_WALK_CONTINUE, d)).
Proof.
  intros Hle. unfold _walker_no_loops_or_dead_insts.
  destruct (Z.ltb_spec (off + 1 + offset inst) off); [lia|].
  by rewrite andb_false_r.
Qed.

Lemma loop_activation_backward data off visited inst es cmd data' visited' :
  activation vm _walker_no_loops_or_dead_insts
    data off visited inst es cmd data' visited' ->
  isjmp inst = true ->
  off + 1 + offset inst < off ->
  marked visited (off + 1 + offset inst) ->
  cmd = UBPF_WALK_STOP /\ Stderr (LoopDetected off) ∈ es.
Proof.
  intros (_ & Hv & _) Hj Hlt Hm.
  rewrite (loop_visitor_backward _ _ _ _ Hj Hlt Hm) in Hv.
  simplify_eq. split; [done|]. set_solver.
Qed.

Lemma revisits_nil visited t k : ~ revisits visited t k [].
Proof. intros [[]%before_nil|[_ []%elem_of_nil]]. Qed.

Lemma revisits_cons visited visited' t k off l :
  array_set visited off 1 = Some visited' ->
  revisits visited t k (off :: l) ->
  (k = off /\ marked visited t) \/ revisits visited' t k l.
Proof.
  intros Hset [Hb|[Hm Hk]].
  - apply before_cons in Hb as [Hb|[-> Hk]]; [right; by left|].
    right. right. split; [by eapply marked_set|done].
  - apply elem_of_cons in Hk as [->|Hk]; [by left|].
    right. right. split; [by eapply marked_set_mono|done].
Qed.

Lemma revisits_app visited visited' t k l l' :
  (forall i, marked visited i \/ i ∈ l -> marked visited' i) ->
  revisits visited t k (l ++ l') ->
  revisits visited t k l \/ revisits visited' t k l'.
Proof.
  intros Hmono [Hb|[Hm Hk]].
  - apply before_app in Hb as [Hb|[Hb|[Ht Hk]]].
    + left. by left.
    + right. by left.
    + right. right. auto.
  - apply elem_of_app in Hk as [Hk|Hk].
    + left. by right.
    + right. right. auto.
Qed.

Local Ltac elem_of_trace :=
  rewrite ?elem_of_app, ?elem_of_entry_events, ?elem_of_cons, ?elem_of_app;
  eauto 10.

(** Entering a backward jump whose target is marked ends the walk with
    [UBPF_WALK_STOP] and the loop diagnostic. *)
Lemma loop_walks_stop p data off visited tr r :
  loop_walks p data off visited tr r ->
  length visited = length (insts vm) ->
  forall k t inst,
    array_get (insts vm) k = Some inst ->
    isjmp inst = true ->
    t = k + 1 + offset inst ->
    t < k ->
    revisits visited t k (entered tr) ->
    (exists d v, r = Done (UBPF_WALK_STOP, d, v)) /\
    Eff (Stderr (LoopDetected k)) ∈ tr.
Proof.
  induction 1; intros Hlen0 k t inst0 Hk Hj Ht Hlt Hb.
  all: repeat match goal with
         | H : walks _ _ _ _ _ _ _ (Done _) |- _ =>
             pose proof (walks_visited _ _ _ _ _ _ _ _ H _ _ _ eq_refl)
               as (? & _ & ?);
             revert H
         end; intros.
  all: rewrite ?entered_app, ?entered_entry_events in Hb; cbn in Hb;
       rewrite ?entered_app, ?entered_effects in Hb.
  all: try (by apply revisits_nil in Hb).
  all: try match goal with
         | H : activation _ _ _ _ _ _ _ _ _ _ |- _ =>
             pose proof (activation_visited _ _ _ _ _ _ _ _ _ _ H)
               as (Hlen & _ & _ & Hmono & _);
             pose proof (loop_activation_backward _ _ _ _ _ _ _ _ H) as Hstop;
             destruct H as (Hinst & _ & Hset);
             apply (revisits_cons _ _ _ _ _ _ Hset) in Hb as [[-> Hm]|Hb];
             [assert (inst0 = inst) as -> by congruence;
              subst t; destruct (Hstop Hj Hlt Hm) as [? ?]; simplify_eq
             |]
         end.
  all: try (by apply revisits_nil in Hb).
  all: repeat match goal with
         | IH : length _ = length _ -> forall k t inst, _ |- _ =>
             specialize (IH ltac:(congruence) k t inst0 Hk Hj Ht Hlt)
         end.
  - (* the visitor fails *)
    assert (k = off /\ marked visited t) as [-> Hm].
    { destruct Hb as [Hb|[Hm Hb]].
      - apply before_cons in Hb as [Hb|[_ Hb]];
          [by apply before_nil in Hb|by apply elem_of_nil in Hb].
      - apply list_elem_of_singleton in Hb. done. }
    simplify_eq.
    match goal with
    | H : _walker_no_loops_or_dead_insts _ _ _ _ _ = _ |- _ =>
        by rewrite loop_visitor_backward in H
    end.
  - (* the mark is inside the array *)
    match goal with
    | H : array_set _ _ _ = None, H' : array_get _ off = Some _ |- _ =>
        apply array_get_Some in H'; rewrite array_set_in_range in H by lia; done
    end.
  - (* halt *) split; [eauto|]. elem_of_trace.
  - (* branch, returning *)
    destruct (IHwalks Hb) as [? ?]. split; [done|]. elem_of_trace.
  - (* branch, then fall-through *)
    assert (Hmono' : forall i, marked visited' i \/ i ∈ entered tr1 ->
                               marked visited'' i).
    { intros i. rewrite elem_of_entered. auto. }
    destruct (revisits_app _ _ _ _ _ _ Hmono' Hb) as [Hb1|Hb2].
    + destruct (IHwalks1 Hb1) as [(? & ? & ?) _]. done.
    + destruct (IHwalks2 Hb2) as [? ?]. split; [done|]. elem_of_trace.
  - (* merge *)
    destruct (IHwalks Hb) as [? ?]. split; [done|]. elem_of_trace.
  - (* plain *)
    destruct (IHwalks Hb) as [? ?]. split; [done|]. elem_of_trace.
  - (* fall-through *)
    destruct (IHwalks Hb) as [? ?]. split; [done|]. elem_of_trace.
Qed.

Lemma loop_activation_structural data off visited inst es cmd data' visited' dg :
  activation vm _walker_no_loops_or_dead_insts
    data off visited inst es cmd data' visited' ->
  structural_diag off inst dg ->
  es = [] /\ cmd = UBPF_WALK_CONTINUE /\ ~ in_bounds vm (off + 1 + offset inst) \/
  es = [] /\ cmd = UBPF_WALK_CONTINUE /\ off + 1 + offset inst = off.
Proof.
  intros (Hinst & Hv & _) Hbad. apply array_get_Some in Hinst.
  fold (num_insts vm) in Hinst.
  rewrite loop_visitor_forward in Hv
    by (destruct Hbad as [[? _]|[? _]]; lia).
  simplify_eq. unfold in_bounds.
  destruct Hbad as [[? _]|[? _]]; [right|left]; split_and!; auto with lia.
Qed.

Local Ltac close_structural :=
  match goal with
  | Hi : array_get _ ?o = Some ?i, Hb : structural_diag ?o ?i _ |- _ =>
      apply array_get_Some in Hi; fold (num_insts vm) in Hi;
      unfold structural_diag in Hb; split; [by eauto|];
      destruct Hb as [[? ->]|[? ->]];
      first [exfalso; unfold in_bounds in *; lia | elem_of_trace]
  end.

Lemma loop_walks_invalid p data off visited tr r :
  loop_walks p data off visited tr r ->
  length visited = length (insts vm) ->
  forall k inst dg,
    array_get (insts vm) k = Some inst ->
    isjmp inst = true ->
    opcode inst <> EBPF_OP_EXIT ->
    structural_diag k inst dg ->
    k ∈ entered tr ->
    (exists d v, r = Done (UBPF_WALK_INVALID, d, v)) /\
    Eff (Stderr dg) ∈ tr.
Proof.
  induction 1; intros Hlen0 k inst0 dg Hk Hj Hexit Hbad Hin.
  all: repeat match goal with
         | H : walks _ _ _ _ _ _ _ (Done _) |- _ =>
             pose proof (walks_visited _ _ _ _ _ _ _ _ H _ _ _ eq_refl)
               as (? & _ & _);
             revert H
         end; intros.
  all: rewrite ?entered_app, ?entered_entry_events in Hin; cbn in Hin;
       rewrite ?entered_app, ?entered_effects in Hin.
  all: try (by apply elem_of_nil in Hin).
  all: try match goal with
         | H : activation _ _ _ _ _ _ _ _ _ _ |- _ =>
             pose proof (activation_visited _ _ _ _ _ _ _ _ _ _ H)
               as (Hlen & _ & _ & _ & _);
             pose proof (loop_activation_structural _ _ _ _ _ _ _ _ dg H) as Hcont;
             destruct H as (Hinst & _ & _);
             apply elem_of_cons in Hin as [->|Hin];
             [assert (inst0 = inst) as -> by congruence;
              destruct (Hcont Hbad) as [(-> & ? & ?)|(-> & ? & ?)]; simplify_eq
             |]
         end.
  all: try done.
  all: try (by apply elem_of_nil in Hin).
  all: try (unfold in_bounds in *; exfalso; lia).
  all: repeat match goal with
         | IH : length _ = length _ -> forall k inst dg, _ |- _ =>
             specialize (IH ltac:(congruence) k inst0 dg Hk Hj Hexit Hbad)
         end.
  all: try match goal with
         | H : array_set _ ?o _ = None, H' : array_get _ ?o = Some _ |- _ =>
             apply array_get_Some in H'; rewrite array_set_in_range in H by lia; done
         end.
  all: try congruence.
  - (* the visitor fails *)
    apply list_elem_of_singleton in Hin as ->.
    assert (inst0 = inst) as -> by congruence.
    apply array_get_Some in Hk. fold (num_insts vm) in Hk.
    match goal with
    | H : _walker_no_loops_or_dead_insts _ _ _ _ _ = _ |- _ =>
        rewrite loop_visitor_forward in H
          by (destruct Hbad as [[? _]|[? _]]; lia); done
    end.
  - close_structural.
  - close_structural.
  - close_structural.
  - destruct (IHwalks Hin) as [? ?]. split; [done|]. elem_of_trace.
  - apply elem_of_app in Hin as [Hin|Hin].
    + destruct (IHwalks1 Hin) as [(? & ? & ?) _]. done.
    + destruct (IHwalks2 Hin) as [? ?]. split; [done|]. elem_of_trace.
  - destruct (IHwalks Hin) as [? ?]. split; [done|]. elem_of_trace.
  - destruct (IHwalks Hin) as [? ?]. split; [done|]. elem_of_trace.
  - destruct (IHwalks Hin) as [? ?]. split; [done|]. elem_of_trace.
Qed.

(** *** The scan for dead instructions *)

Lemma scan_dead_done visited count i any_dead :
  0 <= i ->
  i + Z.of_nat count <= Z.of_nat (length visited) ->
  exists tr a,
    scan_dead visited count i any_dead = (tr, Done a) /\
    (a = any_dead \/ a = 1) /\
    (forall e, e ∈ tr ->
       exists j, e = Eff (RdVisited j) \/ e = Eff (Stderr (DeadInstruction j))).
Proof.
  revert i any_dead. induction count as [|count IH]; intros i any_dead Hi Hlen.
  { exists [], any_dead. split_and!; [done|by left|]. intros e []%elem_of_nil. }
  cbn [scan_dead]. unfold read_visited, vread_visited, stderr.
  destruct (array_get_in_range visited i ltac:(lia)) as [v Hv].
  rewrite Hv. cbn.
  destruct (v =? 0); cbn.
  - destruct (IH (i + 1) 1 ltac:(lia) ltac:(lia)) as (tr & a & -> & Ha & Htr).
    cbn. eexists _, a. split_and!; [done|tauto|].
    intros e. rewrite !elem_of_cons. intros [->|[->|?]]; eauto.
  - destruct (IH (i + 1) any_dead ltac:(lia) ltac:(lia)) as (tr & a & -> & Ha & Htr).
    cbn. eexists _, a. split_and!; [done|tauto|].
    intros e. rewrite !elem_of_cons. intros [->|?]; eauto.
Qed.

Lemma scan_dead_reports visited count i any_dead j :
  0 <= i ->
  i + Z.of_nat count <= Z.of_nat (length visited) ->
  i <= j < i + Z.of_nat count ->
  array_get visited j = Some 0 ->
  exists tr,
    scan_dead visited count i any_dead = (tr, Done 1) /\
    Eff (Stderr (DeadInstruction j)) ∈ tr.
Proof.
  revert i any_dead. induction count as [|count IH]; intros i any_dead Hi Hlen Hj Hz;
    [lia|].
  cbn [scan_dead]. unfold read_visited, vread_visited, stderr.
  destruct (decide (i = j)) as [->|Hne].
  - rewrite Hz. cbn.
    destruct (scan_dead_done visited count (j + 1) 1 ltac:(lia) ltac:(lia))
      as (tr & a & -> & Ha & _).
    cbn. eexists. split; [by destruct Ha as [->| ->]|].
    rewrite !elem_of_cons. auto.
  - destruct (array_get_in_range visited i ltac:(lia)) as [v Hv].
    rewrite Hv. cbn. destruct (v =? 0); cbn.
    + destruct (IH (i + 1) 1 ltac:(lia) ltac:(lia) ltac:(lia) Hz) as (tr & -> & Hin).
      cbn. eexists. split; [done|]. rewrite !elem_of_cons. auto.
    + destruct (IH (i + 1) any_dead ltac:(lia) ltac:(lia) ltac:(lia) Hz)
        as (tr & -> & Hin).
      cbn. eexists. split; [done|]. rewrite !elem_of_cons. auto.
Qed.

(** *** From the walk to [ubpf_verify] *)

Lemma length_fresh_visited : length (fresh_visited vm) = length (insts vm).
Proof. unfold fresh_visited, num_insts. rewrite length_replicate. lia. Qed.

Lemma loop_walk_walks fuel :
  loop_walks Walk tt 0 (fresh_visited vm)
    (trace (loop_walk fuel)) (outcome (loop_walk fuel)).
Proof. apply ubpf_walk_paths_walks. Qed.

Lemma trace_loop_walk_verify fuel e :
  e ∈ trace (loop_walk fuel) -> e ∈ trace (ubpf_verify fuel vm).
Proof.
  intros He. unfold ubpf_verify, ubpf_verify_no_loops_or_dead_insts.
  rewrite !trace_bind, !elem_of_app. left. left. exact He.
Qed.

Lemma verify_rejects_after_walk fuel cmd d v :
  outcome (loop_walk fuel) = Done (cmd, d, v) ->
  cmd <> UBPF_WALK_CONTINUE ->
  outcome (ubpf_verify fuel vm) = Done 1.
Proof.
  intros Hw Hcmd.
  pose proof (loop_walk_walks fuel) as Hrun.
  destruct (walks_visited _ _ _ _ _ _ _ _ Hrun _ _ _ Hw) as (Hlen & _ & _).
  rewrite length_fresh_visited in Hlen.
  unfold ubpf_verify, ubpf_verify_no_loops_or_dead_insts.
  fold (loop_walk fuel).
  rewrite !outcome_bind, Hw. cbn.
  destruct (scan_dead_done v (Z.to_nat (num_insts vm)) 0 0 ltac:(lia)
              ltac:(unfold num_insts; lia)) as (tr & a & -> & Ha & _).
  cbn. destruct cmd; [done| |]; by destruct Ha as [->| ->].
Qed.

(** An offset of the program that the walk has not entered when it
    returns is reported dead, and the program is rejected. *)
Lemma verify_rejects_unentered fuel cmd d v k :
  outcome (loop_walk fuel) = Done (cmd, d, v) ->
  0 <= k < num_insts vm ->
  Visit k ∉ trace (loop_walk fuel) ->
  outcome (ubpf_verify fuel vm) = Done 1 /\
  Eff (Stderr (DeadInstruction k)) ∈ trace (ubpf_verify fuel vm).
Proof.
  intros Hw Hk Hnot.
  pose proof (loop_walk_walks fuel) as Hrun.
  destruct (walks_visited _ _ _ _ _ _ _ _ Hrun _ _ _ Hw) as (Hlen & _ & _).
  rewrite length_fresh_visited in Hlen.
  assert (Hz : array_get v k = Some 0).
  { apply unmarked_in_range; [unfold num_insts in Hk; lia|].
    intros Hm.
    destruct (walks_marked_inv _ _ _ _ _ _ _ _ Hrun _ _ _ Hw k Hm) as [Hf|Hin];
      [by apply fresh_visited_unmarked in Hf|done]. }
  destruct (scan_dead_reports v (Z.to_nat (num_insts vm)) 0 0 k ltac:(lia)
              ltac:(unfold num_insts; lia) ltac:(lia) Hz) as (trs & Hscan & Hin).
  unfold ubpf_verify, ubpf_verify_no_loops_or_dead_insts.
  fold (loop_walk fuel).
  rewrite (surjective_pairing (loop_walk fuel)).
  unfold outcome in Hw. rewrite Hw. cbn. rewrite Hscan. cbn.
  assert (Hor : (Z.lor (action_code cmd) 1 =? 0) = false) by by destruct cmd.
  rewrite Hor. cbn. split; [done|].
  rewrite !elem_of_app. auto.
Qed.

End LoopPass.

(** ** The classifier *)

Section Classifier.

Context {hdr : ebpf_h}.

Lemma not_elem_of_src_bit_exceptions op :
  op ∉ src_bit_exceptions <->
  ((op =? EBPF_OP_NEG) || (op =? EBPF_OP_NEG64) || (op =? EBPF_OP_LE) ||
   (op =? EBPF_OP_BE) || (op =? EBPF_OP_LDDW) || (op =? EBPF_OP_JA) ||
   (op =? EBPF_OP_CALL)) = false.
Proof.
  unfold src_bit_exceptions.
  rewrite !not_elem_of_cons, !orb_false_iff, !Z.eqb_neq.
  pose proof (not_elem_of_nil op). tauto.
Qed.

End Classifier.

(** C4.  [uses_src] returns true for an instruction exactly when its
    opcode is exit, or its class is store-indexed or load-indexed, or its
    class is ALU, ALU64 or jump and the source-is-register bit of the
    opcode is set and the opcode is none of negate-32, negate-64,
    endian-swap-little, endian-swap-big, load-64-bit-immediate,
    unconditional-jump and call; for every other instruction it returns
    false. *)
Theorem uses_src_reads_source_register `{hdr : ebpf_h} (inst : ebpf_inst) :
  (uses_src inst = true <-> reads_source_register inst) /\
  (uses_src inst = false <-> ~ reads_source_register inst).
Proof.
  assert (Hiff : uses_src inst = true <-> reads_source_register inst).
  { unfold uses_src, reads_source_register.
    rewrite not_elem_of_src_bit_exceptions.
    destruct (Z.eqb_spec (opcode inst) EBPF_OP_EXIT) as [|Hexit]; [tauto|].
    destruct (Z.eqb_spec (cls_of inst) EBPF_CLS_STX) as [|Hstx]; [cbn; tauto|].
    destruct (Z.eqb_spec (cls_of inst) EBPF_CLS_LDX) as [|Hldx]; [cbn; tauto|].
    cbn [orb].
    destruct (Z.eqb_spec (cls_of inst) EBPF_CLS_ALU) as [|Halu];
      destruct (Z.eqb_spec (cls_of inst) EBPF_CLS_ALU64) as [|Halu64];
      destruct (Z.eqb_spec (cls_of inst) EBPF_CLS_JMP) as [|Hjmp];
      destruct (Z.eqb_spec (Z.land (opcode inst) EBPF_SRC_REG) 0) as [Hbit|Hbit];
      cbn [orb andb negb];
      try (split; [discriminate|tauto]).
    all: match goal with
         | |- context [if ?b then false else true] => destruct b
         end; split; try discriminate; try tauto.
    all: intros [?|[[?|?]|(_ & _ & ?)]]; done. }
  split; [done|].
  rewrite <-Hiff. by destruct (uses_src inst).
Qed.

(** ** The uninitialized-register pass *)

Lemma marked_array_set a a' i r :
  array_set a i 1 = Some a' -> marked a' r <-> r = i \/ marked a r.
Proof.
  intros H. split.
  - by apply marked_set_inv.
  - intros [->|?]; [by eapply marked_set|by eapply marked_set_mono].
Qed.

Lemma walk_halts `{hdr : ebpf_h} {D} vm (walk_fn : WALKER D) fuel
    data off visited inst es cmd data' visited' :
  activation vm walk_fn data off visited inst es cmd data' visited' ->
  is_continue cmd = false ->
  ubpf_walk_paths vm walk_fn (S fuel) data off visited =
    (entry_events off es, Done (cmd, data', visited')).
Proof.
  intros (Hinst & Hv & Hset) Hcmd.
  cbn [ubpf_walk_paths]. unfold fetch, mark. cbn.
  rewrite Hinst. cbn. rewrite Hv. cbn. rewrite Hset. cbn.
  rewrite Hcmd. cbn. by rewrite ?app_nil_r.
Qed.

Section UninitPass.

Context {hdr : ebpf_h}.

Lemma xor_self_test inst :
  ((opcode inst =? EBPF_OP_XOR_REG) || (opcode inst =? EBPF_OP_XOR64_REG))
  && (dst inst =? src inst) = true <-> xor_self inst.
Proof.
  unfold xor_self. by rewrite andb_true_iff, orb_true_iff, !Z.eqb_eq.
Qed.

Lemma call_sets_r0_spec inst reg_init :
  length reg_init = 16%nat ->
  exists reg',
    call_sets_r0 inst reg_init = ([], Some (UBPF_WALK_CONTINUE, reg')) /\
    length reg' = 16%nat /\
    forall r, marked reg' r <-> marked reg_init r \/ (r = 0 /\ opcode inst = EBPF_OP_CALL).
Proof.
  intros Hlen. unfold call_sets_r0.
  destruct (Z.eqb_spec (opcode inst) EBPF_OP_CALL) as [Hc|Hc].
  - pose proof (array_set_in_range reg_init 0 1 ltac:(lia)) as Hset.
    rewrite Hset. cbn. eexists. split_and!; [done|by rewrite length_insert|].
    intros r. rewrite (marked_array_set _ _ _ _ Hset). tauto.
  - cbn. eexists. split_and!; [done..|]. intros r. tauto.
Qed.

Lemma no_uninit_regs_flagged vm inst reg_init off visited :
  reads_unmarked inst reg_init ->
  _walker_no_uninit_regs vm inst reg_init off visited =
    ([Stderr (UninitializedRegister (src inst) off)],
     Some (UBPF_WALK_STOP, reg_init)).
Proof.
  intros (Hxor & Huses & Hget). unfold _walker_no_uninit_regs.
  rewrite <-xor_self_test in Hxor. apply not_true_is_false in Hxor.
  rewrite Hxor. unfold reads_unset. rewrite Huses, Hget. done.
Qed.

Lemma no_uninit_regs_continue vm inst reg_init off visited :
  0 <= dst inst < 16 ->
  0 <= src inst < 16 ->
  length reg_init = 16%nat ->
  ~ reads_unmarked inst reg_init ->
  exists reg',
    _walker_no_uninit_regs vm inst reg_init off visited =
      ([], Some (UBPF_WALK_CONTINUE, reg')) /\
    length reg' = 16%nat /\
    forall r,
      marked reg' r <->
      marked reg_init r \/
      (r = dst inst /\ (xor_self inst \/ sets_dst inst = true)) \/
      (r = 0 /\ opcode inst = EBPF_OP_CALL).
Proof.
  intros Hdst Hsrc Hlen Hnot. unfold _walker_no_uninit_regs.
  pose proof (array_set_in_range reg_init (dst inst) 1 ltac:(lia)) as Hset.
  assert (Hlen' : length (<[Z.to_nat (dst inst) := 1]> reg_init) = 16%nat)
    by by rewrite length_insert.
  destruct (_ && _) eqn:Hxor.
  - apply xor_self_test in Hxor. rewrite Hset. cbn.
    destruct (call_sets_r0_spec inst _ Hlen') as (reg' & -> & ? & Hm).
    exists reg'. split_and!; [done..|].
    intros r. rewrite Hm, (marked_array_set _ _ _ _ Hset). tauto.
  - assert (Hnx : ~ xor_self inst).
    { rewrite <-xor_self_test. by rewrite Hxor. }
    assert (reads_unset inst reg_init = ([], Some false)) as ->.
    { unfold reads_unset. destruct (uses_src inst) eqn:Huses; [|done].
      destruct (array_get_in_range reg_init (src inst) ltac:(lia)) as [v Hv].
      rewrite Hv. cbn. destruct (Z.eqb_spec v 0) as [->|]; [|done].
      destruct Hnot. by split_and!. }
    cbn. destruct (sets_dst inst) eqn:Hsets.
    + rewrite Hset. cbn.
      destruct (call_sets_r0_spec inst _ Hlen') as (reg' & -> & ? & Hm).
      exists reg'. split_and!; [done..|].
      intros r. rewrite Hm, (marked_array_set _ _ _ _ Hset). tauto.
    + destruct (call_sets_r0_spec inst _ Hlen) as (reg' & -> & ? & Hm).
      exists reg'. split_and!; [done..|].
      intros r. rewrite Hm. split; [tauto|].
      intros [?|[[_ [?|?]]|?]]; [tauto|done|done|tauto].
Qed.

Lemma reg_init_start_marked r : marked reg_init_start r <-> r = 1 \/ r = 10.
Proof.
  unfold marked, array_get, reg_init_start. split.
  - intros (x & Hx & Hne). destruct (Z.ltb_spec r 0); [done|].
    assert (Z.to_nat r < 16)%nat by (apply lookup_lt_Some in Hx; cbn in Hx; lia).
    assert (r = Z.of_nat (Z.to_nat r)) as Hr by lia.
    remember (Z.to_nat r) as n eqn:Hn. clear Hn.
    do 16 (destruct n as [|n]; [cbn in Hx; simplify_eq; lia|]). lia.
  - intros [->| ->]; by exists 1.
Qed.

End UninitPass.

(** C5.  The uninitialized-register pass starts its walk with a bitmap
    in which exactly registers 1 and 10 are marked.  Its visitor treats
    a register-register XOR (32- or 64-bit) with equal source and
    destination as a write: the destination is marked and nothing is
    reported.  Otherwise an instruction that reads its source register
    while that register is unmarked yields the diagnostic naming the
    register and the offset, and the walk stops there.  Otherwise the
    visitor continues, marking the destination when the instruction
    writes it, and register 0 when the instruction is a call; nothing
    else changes.  With the eBPF encoding a call is never among the
    instructions that read their source register. *)
Theorem no_uninit_regs_visitor_spec `{hdr : ebpf_h} (vm : ubpf_vm)
    (inst : ebpf_inst) (reg_init : list Z) (off : Z) (visited : list Z) :
  0 <= dst inst < 16 ->
  0 <= src inst < 16 ->
  length reg_init = 16%nat ->
  ((forall r, marked reg_init_start r <-> r = 1 \/ r = 10) /\
   length reg_init_start = 16%nat /\
   forall fuel,
     ubpf_verify_no_uninit_regs fuel vm =
     ubpf_walk_start vm _walker_no_uninit_regs fuel reg_init_start) /\
  (xor_self inst -> ~ reads_unmarked inst reg_init) /\
  (reads_unmarked inst reg_init ->
   _walker_no_uninit_regs vm inst reg_init off visited =
     ([Stderr (UninitializedRegister (src inst) off)],
      Some (UBPF_WALK_STOP, reg_init)) /\
   forall fuel visited',
     array_get (insts vm) off = Some inst ->
     array_set visited off 1 = Some visited' ->
     ubpf_walk_paths vm _walker_no_uninit_regs (S fuel) reg_init off visited =
       (entry_events off [Stderr (UninitializedRegister (src inst) off)],
        Done (UBPF_WALK_STOP, reg_init, visited'))) /\
  (~ reads_unmarked inst reg_init ->
   exists reg',
     _walker_no_uninit_regs vm inst reg_init off visited =
       ([], Some (UBPF_WALK_CONTINUE, reg')) /\
     length reg' = 16%nat /\
     forall r,
       marked reg' r <->
       marked reg_init r \/
       (r = dst inst /\ (xor_self inst \/ sets_dst inst = true)) \/
       (r = 0 /\ opcode inst = EBPF_OP_CALL)) /\
  (opcode inst = @EBPF_OP_CALL ebpf_std -> @uses_src ebpf_std inst = false).
Proof.
  intros Hdst Hsrc Hlen. split_and!.
  - apply reg_init_start_marked.
  - done.
  - done.
  - intros Hx (Hnx & _). done.
  - intros Hflag.
    pose proof (no_uninit_regs_flagged vm inst reg_init off visited Hflag) as Hv.
    split; [done|]. intros fuel visited' Hinst Hset.
    by apply (walk_halts _ _ _ _ _ _ inst).
  - by apply no_uninit_regs_continue.
  - intros Hcall. unfold uses_src, cls_of. rewrite Hcall. reflexivity.
Qed.

(** ** The walker, for every visitor *)

(** C9.  For a program with at least one instruction the walk started at
    offset 0 terminates, whatever the visitor: a recursion depth of
    [n * (n + 1)] for [n] instructions is never exceeded (a jump edge is
    only followed into an unmarked offset, which the callee marks for
    good, and the fall-through edge moves towards the last instruction),
    and with that much fuel or more the run is the same. *)
Theorem ubpf_walk_start_terminates `{hdr : ebpf_h} {D : Type} (vm : ubpf_vm)
    (walk_fn : WALKER D) (data : D) (fuel : nat) :
  1 <= num_insts vm ->
  (Z.to_nat (num_insts vm * (num_insts vm + 1)) <= fuel)%nat ->
  outcome (ubpf_walk_start vm walk_fn fuel data) <> OutOfFuel /\
  ubpf_walk_start vm walk_fn fuel data =
  ubpf_walk_start vm walk_fn (Z.to_nat (num_insts vm * (num_insts vm + 1))) data.
Proof.
  intros Hn Hfuel.
  set (bound := Z.to_nat (num_insts vm * (num_insts vm + 1))) in *.
  pose proof (walk_measure_start vm Hn) as Hm. fold bound in Hm.
  pose proof (ubpf_walk_paths_fuel vm walk_fn bound data 0 _ Hm) as Hb.
  pose proof (ubpf_walk_paths_fuel_le vm walk_fn bound fuel data 0 _ Hfuel Hb) as Heq.
  unfold ubpf_walk_start. rewrite Heq. split; [|done].
  rewrite outcome_bind.
  destruct (outcome (ubpf_walk_paths vm walk_fn bound data 0 (fresh_visited vm)))
    as [[[cmd d] v]| |]; done.
Qed.

Lemma fetch_ubpf_verify `{hdr : ebpf_h} (vm : ubpf_vm) (fuel : nat) i :
  Fetch i ∈ trace (ubpf_verify fuel vm) ->
  Fetch i ∈ trace (loop_walk vm fuel) \/
  Fetch i ∈ trace (ubpf_walk_paths vm _walker_no_uninit_regs fuel
                     reg_init_start 0 (fresh_visited vm)).
Proof.
  unfold ubpf_verify, ubpf_verify_no_loops_or_dead_insts,
    ubpf_verify_no_uninit_regs, ubpf_walk_start.
  fold (loop_walk vm fuel).
  pose proof (loop_walk_walks vm fuel) as Hrun.
  pose proof (walks_visited _ _ _ _ _ _ _ _ Hrun) as Hvis.
  destruct (loop_walk vm fuel) as [tr1 [[[cmd d] v]| |]]; cbn in *.
  2,3: by left.
  destruct (Hvis _ _ _ eq_refl) as (Hlen & _ & _).
  rewrite length_fresh_visited in Hlen.
  destruct (scan_dead_done v (Z.to_nat (num_insts vm)) 0 0 ltac:(lia)
              ltac:(unfold num_insts; lia)) as (trs & a & -> & _ & Hscan).
  cbn.
  assert (Hs : Fetch i ∈ trs -> False).
  { intros [j [?|?]]%Hscan; done. }
  destruct (negb (Z.lor (action_code cmd) a =? 0)); cbn.
  { rewrite !elem_of_app, elem_of_nil. tauto. }
  destruct (ubpf_walk_paths vm _walker_no_uninit_regs fuel _ _ _)
    as [tr2 [[[cmd2 d2] v2]| |]]; cbn.
  2,3: rewrite !elem_of_app, elem_of_nil; tauto.
  destruct (negb (action_code cmd2 =? 0)); cbn;
    rewrite !elem_of_app, elem_of_nil; tauto.
Qed.

(** C10.  With at least one instruction, every read of the instruction
    array during [ubpf_verify] is at an offset inside the array.  The
    bound is needed: the first thing [ubpf_verify] does, before any
    check, is to read the instruction at offset 0, which for the empty
    program lies outside the array. *)
Theorem ubpf_verify_fetches_in_range `{hdr : ebpf_h} (vm : ubpf_vm) (fuel : nat) :
  (1 <= num_insts vm ->
   forall i, Fetch i ∈ trace (ubpf_verify fuel vm) -> 0 <= i < num_insts vm) /\
  (exists tr, trace (ubpf_verify (S fuel) vm) = Fetch 0 :: tr) /\
  (num_insts vm = 0 -> ubpf_verify (S fuel) vm = ([Fetch 0], Fault)).
Proof.
  split; [|split].
  - intros Hn i [Hi|Hi]%fetch_ubpf_verify.
    + apply (walks_fetch_in_range _ _ _ _ _ _ _ _ (loop_walk_walks vm fuel));
        [lia|done].
    + apply (walks_fetch_in_range _ _ _ _ _ _ _ _
               (ubpf_walk_paths_walks vm _walker_no_uninit_regs fuel
                  reg_init_start 0 (fresh_visited vm))); [lia|done].
  - unfold ubpf_verify, ubpf_verify_no_loops_or_dead_insts.
    rewrite !trace_bind. cbn [ubpf_walk_paths]. unfold fetch.
    rewrite !trace_bind. cbn. eauto.
  - unfold num_insts. destruct vm as [[|inst l]]; cbn; [done|lia].
Qed.

(** C1, as stated, fails: in the diamond [jeq +1 ; mov ; exit ; mov] the
    walker enters the exit at offset 2 through the jump edge of offset 0
    and again through the fall-through edge of offset 1. *)
Lemma diamond_exit_entered_twice :
  ~ enters_at_most_once (trace (loop_walk prog_diamond 3)).
Proof.
  unfold enters_at_most_once.
  change (entered (trace (loop_walk prog_diamond 3))) with [0; 2; 1; 2].
  intros [_ [H _]%NoDup_cons]%NoDup_cons. apply H. set_solver.
Qed.

(** C1, amended.  The walker follows a jump edge only into an offset
    that is unmarked and that the visitor has not been invoked on
    earlier in the walk: once an offset has been entered, no later step
    descends into it through a jump edge.  (The fall-through edge is
    followed without looking at the marks.) *)
Theorem branch_edge_never_reenters `{hdr : ebpf_h} {D : Type} (vm : ubpf_vm)
    (walk_fn : WALKER D) (fuel : nat) (data : D) (off : Z) (visited : list Z)
    (tr1 tr2 : list event) (t : Z) :
  trace (ubpf_walk_paths vm walk_fn fuel data off visited)
    = tr1 ++ Follow Branch t :: tr2 ->
  ~ marked visited t /\ Visit t ∉ tr1.
Proof.
  intros Htr.
  pose proof (ubpf_walk_paths_walks vm walk_fn fuel data off visited) as Hrun.
  destruct (walks_branch_fresh _ _ _ _ _ _ _ _ Hrun t) as [Hm Hb].
  rewrite Htr in Hm, Hb. split.
  - apply Hm. rewrite elem_of_app, elem_of_cons. auto.
  - intros Hin. apply Hb. by exists tr1, tr2.
Qed.

Lemma branch_edge_never_reenters_witness :
  trace (ubpf_walk_paths prog_diamond _walker_no_loops_or_dead_insts 3 tt 0
           (fresh_visited prog_diamond))
    = [Fetch 0; Visit 0; Mark 0; Eff (RdVisited 2)] ++
      Follow Branch 2 ::
      [Fetch 2; Visit 2; Mark 2; Follow FallThrough 1; Fetch 1; Visit 1;
       Mark 1; Follow FallThrough 2; Fetch 2; Visit 2; Mark 2] /\
  (~ marked (fresh_visited prog_diamond) 2 /\
   Visit 2 ∉ [Fetch 0; Visit 0; Mark 0; Eff (RdVisited 2)]).
Proof.
  split; [reflexivity|].
  apply (branch_edge_never_reenters prog_diamond
           _walker_no_loops_or_dead_insts 3 tt 0 (fresh_visited prog_diamond)
           [Fetch 0; Visit 0; Mark 0; Eff (RdVisited 2)]
           [Fetch 2; Visit 2; Mark 2; Follow FallThrough 1; Fetch 1; Visit 1;
            Mark 1; Follow FallThrough 2; Fetch 2; Visit 2; Mark 2] 2).
  reflexivity.
Defined.

(** ** The scenarios *)

(** The embedding run on the other scenarios of the specification. *)
Example verify_self_jump :
  ubpf_verify 1 prog_self_jump =
    ([Fetch 0; Visit 0; Mark 0; Eff (Stderr (JumpToSelf 0));
      Eff (RdVisited 0)], Done 1).
Proof. reflexivity. Qed.

Example verify_dead_tail :
  outcome (ubpf_verify 2 prog_dead_tail) = Done 1 /\
  diagnostics (trace (ubpf_verify 2 prog_dead_tail)) = [DeadInstruction 2].
Proof. split; reflexivity. Qed.

Example verify_uninit_read :
  outcome (ubpf_verify 2 prog_uninit_read) = Done 1 /\
  diagnostics (trace (ubpf_verify 2 prog_uninit_read))
    = [UninitializedRegister 3 0].
Proof. split; reflexivity. Qed.

Example verify_zero_idiom :
  outcome (ubpf_verify 3 prog_zero_idiom) = Done 0 /\
  diagnostics (trace (ubpf_verify 3 prog_zero_idiom)) = [].
Proof. split; reflexivity. Qed.

(** C2, as stated, fails: [ubpf_verify] never returns 0 on the program
    that consists of [exit] alone. *)
Lemma verify_exit_only_not_accepted :
  ~ exists fuel, outcome (ubpf_verify fuel prog_exit) = Done 0.
Proof. intros [[|fuel] H]; vm_compute in H; discriminate. Qed.

(** C2, amended.  [ubpf_verify] rejects the one-instruction program
    [exit] with all register fields zero.  The loop / dead-code pass
    reports nothing; the uninitialized-register pass classifies [exit]
    as reading its source register, here register 0, which is unmarked
    at entry, prints the diagnostic for register 0 at offset 0 and
    stops. *)
Theorem verify_exit_only_rejected (fuel : nat) :
  ubpf_verify (S fuel) prog_exit =
    ([Fetch 0; Visit 0; Mark 0; Eff (RdVisited 0);
      Fetch 0; Visit 0; Eff (Stderr (UninitializedRegister 0 0)); Mark 0],
     Done 1).
Proof. reflexivity. Qed.

(** C7, as stated, fails: [ubpf_verify] never returns 0 on the diamond
    of the scenario. *)
Lemma verify_diamond_not_accepted :
  ~ exists fuel, outcome (ubpf_verify fuel prog_diamond) = Done 0.
Proof. intros [[|[|[|fuel]]] H]; vm_compute in H; discriminate. Qed.

(** C7, amended.  [ubpf_verify] rejects the program [jeq r1, 0, +1 ;
    mov r0, r1 ; exit ; mov r0, r10].  The walk follows the jump edge
    from offset 0 to the exit at offset 2 and the fall-through edge to
    offset 1 once each, then falls through from offset 1 into offset 2 a
    second time and ends there; offset 3, behind the exit, is never
    entered and is reported dead.  The uninitialized-register pass is
    not run. *)
Theorem verify_diamond_rejected (fuel : nat) :
  ubpf_verify (S (S (S fuel))) prog_diamond =
    ([Fetch 0; Visit 0; Mark 0; Eff (RdVisited 2);
      Follow Branch 2; Fetch 2; Visit 2; Mark 2;
      Follow FallThrough 1; Fetch 1; Visit 1; Mark 1;
      Follow FallThrough 2; Fetch 2; Visit 2; Mark 2;
      Eff (RdVisited 0); Eff (RdVisited 1); Eff (RdVisited 2);
      Eff (RdVisited 3); Eff (Stderr (DeadInstruction 3))],
     Done 1).
Proof. reflexivity. Qed.

(** C8 does not hold of the code.  On [ja -2] the visitor of the loop /
    dead-code pass is invoked at offset 0, finds the target -1 below the
    offset and reads [visited] at index -1, before the walker has
    checked the target against the bounds of the program. *)
Theorem loop_visitor_reads_below_visited (fuel : nat) :
  _walker_no_loops_or_dead_insts prog_jump_before_start
    (mk_inst EBPF_OP_JA 0 0 (-2) 0) tt 0 (fresh_visited prog_jump_before_start)
    = ([RdVisited (-1)], None) /\
  ubpf_verify (S fuel) prog_jump_before_start =
    ([Fetch 0; Visit 0; Eff (RdVisited (-1))], Fault).
Proof. split; reflexivity. Qed.

(** ** The loop / dead-code pass inside [ubpf_verify] *)

(** C3.  If the walk of the loop / dead-code pass invokes the visitor on
    a jump instruction at offset [k] whose target [k + 1 + offset] lies
    below [k] and was entered earlier in that walk, then [ubpf_verify]
    rejects the program and the loop diagnostic for offset [k] is
    printed. *)
Theorem verify_rejects_backward_jump_into_entered `{hdr : ebpf_h}
    (vm : ubpf_vm) (fuel : nat) (k : Z) (inst : ebpf_inst) :
  array_get (insts vm) k = Some inst ->
  isjmp inst = true ->
  k + 1 + offset inst < k ->
  before (Visit (k + 1 + offset inst)) (Visit k) (trace (loop_walk vm fuel)) ->
  outcome (ubpf_verify fuel vm) = Done 1 /\
  LoopDetected k ∈ diagnostics (trace (ubpf_verify fuel vm)).
Proof.
  intros Hk Hj Hlt Hb.
  destruct (loop_walks_stop vm _ _ _ _ _ _ (loop_walk_walks vm fuel)
              (length_fresh_visited vm) k _ inst Hk Hj eq_refl Hlt)
    as [(d & v & Hr) Hd].
  { left. by apply before_entered. }
  split.
  - by eapply verify_rejects_after_walk.
  - apply elem_of_diagnostics. by apply trace_loop_walk_verify.
Qed.

Lemma verify_rejects_backward_jump_into_entered_witness :
  outcome (ubpf_verify 2 prog_loop) = Done 1 /\
  LoopDetected 1 ∈ diagnostics (trace (ubpf_verify 2 prog_loop)).
Proof.
  apply (verify_rejects_backward_jump_into_entered prog_loop 2 1
           (mk_inst EBPF_OP_JA 0 0 (-2) 0)).
  - reflexivity.
  - reflexivity.
  - simpl. lia.
  - exists [Fetch 0; Visit 0; Mark 0; Follow FallThrough 1; Fetch 1],
      [Eff (RdVisited 0); Eff (Stderr (LoopDetected 1)); Mark 1].
    split; [reflexivity|].
    apply list_elem_of_further, list_elem_of_here.
Defined.

(** C6, as stated, fails: in [exit ; ja -1] the jump at offset 1 has
    branch offset -1, yet no run of [ubpf_verify] prints the jump-to-self
    diagnostic for it; the walk ends at the exit and never enters
    offset 1. *)
Lemma unentered_self_jump_not_reported :
  ~ exists fuel,
      JumpToSelf 1 ∈ diagnostics (trace (ubpf_verify fuel prog_dead_self_jump)).
Proof.
  intros [[|fuel] H]; vm_compute in H.
  - by apply elem_of_nil in H.
  - apply list_elem_of_singleton in H. discriminate.
Qed.

(** C6, amended.  Take a program with a jump instruction (jump class,
    neither call nor exit) at offset [k].  If the walk of the loop /
    dead-code pass enters [k], then: with branch offset -1,
    [ubpf_verify] rejects the program and prints the jump-to-self
    diagnostic for [k]; with a target at or beyond the program length,
    [ubpf_verify] rejects the program and prints the out-of-bounds
    diagnostic for [k] and that target.  If the walk returns without
    having entered [k], [ubpf_verify] rejects the program and prints the
    dead-instruction diagnostic for [k].  Nothing is said here about
    targets below zero. *)
Theorem verify_rejects_structural_jump `{hdr : ebpf_h}
    (vm : ubpf_vm) (fuel : nat) (k : Z) (inst : ebpf_inst) :
  array_get (insts vm) k = Some inst ->
  isjmp inst = true ->
  opcode inst <> EBPF_OP_EXIT ->
  (Visit k ∈ trace (loop_walk vm fuel) ->
   (offset inst = -1 ->
    outcome (ubpf_verify fuel vm) = Done 1 /\
    JumpToSelf k ∈ diagnostics (trace (ubpf_verify fuel vm))) /\
   (k + 1 + offset inst >= num_insts vm ->
    outcome (ubpf_verify fuel vm) = Done 1 /\
    JumpOutOfBounds k (k + 1 + offset inst)
      ∈ diagnostics (trace (ubpf_verify fuel vm)))) /\
  (Visit k ∉ trace (loop_walk vm fuel) ->
   forall cmd d v,
     outcome (loop_walk vm fuel) = Done (cmd, d, v) ->
     outcome (ubpf_verify fuel vm) = Done 1 /\
     DeadInstruction k ∈ diagnostics (trace (ubpf_verify fuel vm))).
Proof.
  intros Hk Hj Hexit. split.
  - intros Hin.
    assert (Hkey : forall dg, structural_diag vm k inst dg ->
              outcome (ubpf_verify fuel vm) = Done 1 /\
              dg ∈ diagnostics (trace (ubpf_verify fuel vm))).
    { intros dg Hbad.
      destruct (loop_walks_invalid vm _ _ _ _ _ _ (loop_walk_walks vm fuel)
                  (length_fresh_visited vm) k inst dg Hk Hj Hexit Hbad)
        as [(d & v & Hr) Hd].
      { by apply elem_of_entered. }
      split.
      - by eapply verify_rejects_after_walk.
      - apply elem_of_diagnostics. by apply trace_loop_walk_verify. }
    split; intros H; apply Hkey; unfold structural_diag; [left|right];
      (split; [lia|done]).
  - intros Hnot cmd d v Hw.
    apply array_get_Some in Hk. fold (num_insts vm) in Hk.
    destruct (verify_rejects_unentered vm fuel cmd d v k Hw Hk Hnot) as [Hr Hd].
    split; [done|]. by apply elem_of_diagnostics.
Qed.

Lemma verify_rejects_structural_jump_witness :
  (array_get (insts prog_self_jump) 0 = Some (mk_inst EBPF_OP_JA 0 0 (-1) 0) /\
   isjmp (mk_inst EBPF_OP_JA 0 0 (-1) 0) = true /\
   opcode (mk_inst EBPF_OP_JA 0 0 (-1) 0) <> EBPF_OP_EXIT /\
   Visit 0 ∈ trace (loop_walk prog_self_jump 1)) /\
  outcome (ubpf_verify 1 prog_self_jump) = Done 1 /\
  JumpToSelf 0 ∈ diagnostics (trace (ubpf_verify 1 prog_self_jump)).
Proof.
  assert (H1 : array_get (insts prog_self_jump) 0
               = Some (mk_inst EBPF_OP_JA 0 0 (-1) 0)) by reflexivity.
  assert (H2 : isjmp (mk_inst EBPF_OP_JA 0 0 (-1) 0) = true) by reflexivity.
  assert (H3 : opcode (mk_inst EBPF_OP_JA 0 0 (-1) 0) <> EBPF_OP_EXIT)
    by (vm_compute; discriminate).
  assert (H4 : Visit 0 ∈ trace (loop_walk prog_self_jump 1))
    by apply list_elem_of_further, list_elem_of_here.
  split; [by split_and!|].
  exact (proj1 (proj1 (verify_rejects_structural_jump prog_self_jump 1 0
                         (mk_inst EBPF_OP_JA 0 0 (-1) 0) H1 H2 H3) H4)
           eq_refl).
Defined.

(** ** Witnesses *)

Lemma no_uninit_regs_visitor_spec_witness :
  let inst := mk_inst EBPF_OP_XOR64_REG 3 3 0 0 in
  (0 <= dst inst < 16 /\ 0 <= src inst < 16 /\
   length reg_init_start = 16%nat) /\
  exists reg',
    _walker_no_uninit_regs prog_exit inst reg_init_start 0 [0] =
      ([], Some (UBPF_WALK_CONTINUE, reg')) /\
    forall r, marked reg' r <-> r = 1 \/ r = 10 \/ r = 3.
Proof.
  intros inst. split; [simpl; repeat split; lia|].
  destruct (no_uninit_regs_visitor_spec prog_exit inst reg_init_start 0 [0])
    as ((Hstart & _ & _) & Hxor & _ & Hcont & _).
  - simpl. lia.
  - simpl. lia.
  - reflexivity.
  - assert (Hx : xor_self inst) by (split; [by right|reflexivity]).
    destruct (Hcont (Hxor Hx)) as (reg' & Hv & _ & Hm).
    exists reg'. split; [exact Hv|].
    intros r. rewrite Hm, Hstart. simpl.
    split.
    + intros [[?|?]|[[? _]|[_ ?]]]; [tauto|tauto|tauto|discriminate].
    + intros [?|[?|?]]; auto.
Defined.

Lemma ubpf_walk_start_terminates_witness :
  (1 <= num_insts prog_diamond /\
   (Z.to_nat (num_insts prog_diamond * (num_insts prog_diamond + 1)) <= 25)%nat) /\
  outcome (ubpf_walk_start prog_diamond _walker_no_uninit_regs 25 reg_init_start)
    <> OutOfFuel /\
  ubpf_walk_start prog_diamond _walker_no_uninit_regs 25 reg_init_start =
  ubpf_walk_start prog_diamond _walker_no_uninit_regs
    (Z.to_nat (num_insts prog_diamond * (num_insts prog_diamond + 1)))
    reg_init_start.
Proof.
  assert (H1 : 1 <= num_insts prog_diamond) by (unfold num_insts; simpl; lia).
  assert (H2 : (Z.to_nat (num_insts prog_diamond * (num_insts prog_diamond + 1))
                <= 25)%nat) by (unfold num_insts; simpl; lia).
  split; [by split|].
  exact (ubpf_walk_start_terminates prog_diamond _walker_no_uninit_regs
           reg_init_start 25 H1 H2).
Defined.

Lemma ubpf_verify_fetches_in_range_witness :
  1 <= num_insts prog_diamond /\
  (forall i, Fetch i ∈ trace (ubpf_verify 3 prog_diamond) ->
     0 <= i < num_insts prog_diamond).
Proof.
  assert (H1 : 1 <= num_insts prog_diamond) by (unfold num_insts; simpl; lia).
  split; [exact H1|].
  exact (proj1 (ubpf_verify_fetches_in_range prog_diamond 3) H1).
Defined.

(** * Further properties of the code *)

(** ** The walker, for every visitor *)

Section WalkMore.

Context {hdr : ebpf_h} {D : Type}.
Variable vm : ubpf_vm.
Variable walk_fn : WALKER D.

#[local] Abbreviation activation := (activation vm walk_fn).
#[local] Abbreviation in_bounds := (in_bounds vm).
#[local] Abbreviation walks := (walks vm walk_fn).
#[local] Abbreviation visit_budget := (visit_budget vm).

Lemma activation_binary data off visited inst es cmd data' visited' :
  activation data off visited inst es cmd data' visited' ->
  binary visited -> binary visited'.
Proof.
  intros (_ & _ & [_ ->]%array_set_Some) Hb.
  apply Forall_insert; auto.
Qed.

Lemma walks_binary p data off visited tr r :
  walks p data off visited tr r ->
  forall cmd d v', r = Done (cmd, d, v') -> binary visited -> binary v'.
Proof.
  induction 1; intros c d' v' Hr Hb; try discriminate;
    try match goal with
        | H : activation _ _ _ _ _ _ _ _ |- _ =>
            pose proof (activation_binary _ _ _ _ _ _ _ _ H Hb)
        end;
    simplify_eq; eauto.
Qed.

Lemma walks_done_enters data off visited tr r :
  walks Walk data off visited tr r ->
  forall cmd d v', r = Done (cmd, d, v') -> Visit off ∈ tr.
Proof.
  inversion 1; intros c d' v' Hr; try discriminate; subst;
    rewrite ?elem_of_app, elem_of_entry_events; auto.
Qed.

Lemma walks_visit_in_range p data off visited tr r :
  walks p data off visited tr r ->
  forall i, Visit i ∈ tr -> 0 <= i < num_insts vm.
Proof.
  induction 1; intros i Hi.
  all: try match goal with
         | H : activation _ _ _ _ _ _ _ _ |- _ =>
             destruct H as (Hinst%array_get_Some & _ & _)
         | H : array_get (insts vm) _ = Some _ |- _ =>
             apply array_get_Some in H
         end.
  all: unfold_elem_of Hi.
  all: repeat match goal with
         | H : False |- _ => destruct H
         | H : _ \/ _ |- _ => destruct H
         | H : exists _, _ |- _ => destruct H
         | H : _ /\ _ |- _ => destruct H
         end; simplify_eq; auto.
Qed.

Lemma walks_visit_count p data off visited tr r :
  walks p data off visited tr r ->
  0 <= off < num_insts vm ->
  Z.of_nat (length (entered tr)) <= visit_budget p off visited /\
  forall cmd d v', r = Done (cmd, d, v') ->
    Z.of_nat (length (entered tr)) + num_insts vm * Z.of_nat (unvisited v')
    <= visit_budget p off visited.
Proof.
  induction 1; intros Hoff.
  all: try match goal with
         | H : activation _ _ _ _ _ _ _ _ |- _ =>
             destruct H as (_ & _ & Hset);
             pose proof (array_set_Some _ _ _ _ Hset) as [_ ->]
         end.
  all: repeat match goal with
         | H : array_get _ ?np = Some 0 |- _ =>
             pose proof (array_get_Some _ _ _ H);
             unfold array_get in H;
             destruct (np <? 0); [discriminate H|];
             apply unvisited_insert_lt in H
         end.
  all: repeat match goal with
         | IH : 0 <= _ < _ -> _ |- _ =>
             destruct (IH ltac:(unfold in_bounds in *; lia))
               as [? ?]; clear IH
         end.
  all: repeat match goal with
         | H : forall _ _ _, Done _ = Done _ -> _ |- _ =>
             specialize (H _ _ _ eq_refl)
         end.
  all: rewrite ?entered_app, ?entered_entry_events, ?entered_cons_eff,
         ?entered_cons_follow, ?entered_app, ?length_app;
       change (entered []) with (@nil Z);
       change (entered [Fetch off]) with (@nil Z);
       rewrite ?entered_visitor_fault.
  all: cbn [length app].
  all: unfold visit_budget in *.
  all: try match goal with
         | H : context [unvisited (<[Z.to_nat (?o + 1) := 1]> ?v)] |- _ =>
             pose proof (unvisited_insert_le v (Z.to_nat (o + 1)))
         end.
  all: (split; [|intros c d' v' Hr; simplify_eq]).
  all: repeat match goal with
         | H : forall _ _ _, Done _ = Done _ -> _ |- _ =>
             specialize (H _ _ _ eq_refl)
         end.
  all: nia.
Qed.

End WalkMore.

Lemma binary_fresh_visited vm : binary (fresh_visited vm).
Proof. apply Forall_replicate. by left. Qed.

(** X1.  When a walk started at offset 0 on a cleared [visited] array
    returns, the array has the length of the program and holds 1 exactly
    at the offsets the visitor was invoked on and 0 at every other
    offset. *)
Theorem walk_visited_is_entered `{hdr : ebpf_h} {D : Type} (vm : ubpf_vm)
    (walk_fn : WALKER D) (fuel : nat) (data : D)
    (cmd : ubpf_walk_action) (d : D) (v : list Z) :
  outcome (ubpf_walk_paths vm walk_fn fuel data 0 (fresh_visited vm))
    = Done (cmd, d, v) ->
  length v = length (insts vm) /\
  forall i, 0 <= i < num_insts vm ->
    array_get v i =
    Some (if decide (i ∈ entered (trace (ubpf_walk_paths vm walk_fn fuel data 0
                                           (fresh_visited vm))))
          then 1 else 0).
Proof.
  intros Hr.
  pose proof (ubpf_walk_paths_walks vm walk_fn fuel data 0 (fresh_visited vm))
    as Hrun.
  destruct (walks_visited _ _ _ _ _ _ _ _ Hrun _ _ _ Hr) as (Hlen & _ & Hm).
  rewrite length_fresh_visited in Hlen. split; [done|].
  intros i Hi. case_decide as Hin; rewrite elem_of_entered in Hin.
  - destruct (Hm i (or_intror Hin)) as (x & Hx & Hne).
    pose proof (walks_binary _ _ _ _ _ _ _ _ Hrun _ _ _ Hr
                  (binary_fresh_visited vm)) as Hb.
    unfold array_get in *. destruct (i <? 0); [done|].
    rewrite Hx. f_equal.
    eapply Forall_lookup_1 in Hb; [|exact Hx]. lia.
  - apply unmarked_in_range; [unfold num_insts in Hi; lia|].
    intros Hmk.
    destruct (walks_marked_inv _ _ _ _ _ _ _ _ Hrun _ _ _ Hr i Hmk) as [Hf|?];
      [by apply fresh_visited_unmarked in Hf|done].
Qed.

Lemma walk_visited_is_entered_witness :
  outcome (loop_walk prog_diamond 3)
    = Done (UBPF_WALK_CONTINUE, tt, [1; 1; 1; 0]) /\
  (length [1; 1; 1; 0] = length (insts prog_diamond) /\
   forall i, 0 <= i < num_insts prog_diamond ->
     array_get [1; 1; 1; 0] i =
     Some (if decide (i ∈ entered (trace (loop_walk prog_diamond 3)))
           then 1 else 0)).
Proof.
  split; [reflexivity|].
  apply (walk_visited_is_entered prog_diamond _walker_no_loops_or_dead_insts
           3 tt UBPF_WALK_CONTINUE tt [1; 1; 1; 0]).
  reflexivity.
Defined.

(** X2.  A walk started at offset 0 on a cleared [visited] array invokes
    the visitor at most [n * n] times on a program of [n] instructions,
    whatever the visitor does and however the walk ends. *)
Theorem walk_visits_at_most_quadratic `{hdr : ebpf_h} {D : Type}
    (vm : ubpf_vm) (walk_fn : WALKER D) (fuel : nat) (data : D) :
  Z.of_nat (length (entered (trace (ubpf_walk_paths vm walk_fn fuel data 0
                                      (fresh_visited vm)))))
  <= num_insts vm * num_insts vm.
Proof.
  pose proof (ubpf_walk_paths_walks vm walk_fn fuel data 0 (fresh_visited vm))
    as Hrun.
  destruct (decide (1 <= num_insts vm)) as [Hn|Hn].
  - destruct (walks_visit_count _ _ _ _ _ _ _ _ Hrun ltac:(lia)) as [Hc _].
    unfold visit_budget in Hc.
    assert (Hlt : (unvisited (<[Z.to_nat 0 := 1%Z]> (fresh_visited vm))
                   < Z.to_nat (num_insts vm))%nat).
    { unfold fresh_visited.
      eapply Nat.lt_le_trans; [apply unvisited_insert_lt|].
      - apply lookup_replicate. split; [done|lia].
      - by rewrite unvisited_replicate. }
    nia.
  - assert (Hz : insts vm = []).
    { unfold num_insts in Hn. destruct (insts vm); [done|cbn in Hn; lia]. }
    inversion Hrun; subst; cbn;
      try match goal with
          | H : activation _ _ _ _ _ _ _ _ _ _ |- _ =>
              destruct H as (Hi & _ & _)
          end;
      try match goal with
          | H : array_get (insts vm) 0 = Some _ |- _ => rewrite Hz in H; done
          end.
    all: unfold num_insts; rewrite Hz; cbn; lia.
Qed.

(** ** The walk and the control-flow graph *)

Section WalkFlow.

Context {hdr : ebpf_h} {D : Type}.
Variable vm : ubpf_vm.
Variable walk_fn : WALKER D.

#[local] Abbreviation activation := (activation vm walk_fn).
#[local] Abbreviation walks := (walks vm walk_fn).
#[local] Abbreviation successor := (successor vm).

Local Ltac split_hyps :=
  repeat match goal with
         | H : False |- _ => destruct H
         | H : _ \/ _ |- _ => destruct H
         | H : exists _, _ |- _ => destruct H
         | H : _ /\ _ |- _ => destruct H
         end.

Lemma successor_fall off inst :
  array_get (insts vm) off = Some inst ->
  opcode inst <> EBPF_OP_EXIT ->
  off <> num_insts vm - 1 ->
  successor off (off + 1).
Proof. intros. exists inst. split_and!; [done..|]. by left. Qed.

Lemma successor_jump off inst :
  array_get (insts vm) off = Some inst ->
  opcode inst <> EBPF_OP_EXIT ->
  isjmp inst = true ->
  successor off (off + 1 + offset inst).
Proof. intros. exists inst. split_and!; [done..|]. by right. Qed.

(** Whatever the walk enters is connected to its starting offset. *)
Lemma walks_entered_reachable p data off visited tr r :
  walks p data off visited tr r ->
  forall i, Visit i ∈ tr ->
    match p with
    | Walk => rtc successor off i
    | Fall => off <> num_insts vm - 1 /\ rtc successor (off + 1) i
    end.
Proof.
  induction 1; intros i Hi.
  all: try match goal with
         | H : activation _ _ _ _ _ _ _ _ |- _ => destruct H as (Hinst & _ & _)
         end.
  all: repeat match goal with
         | IH : forall i, Visit i ∈ _ -> _ |- _ => specialize (IH i)
         end.
  all: unfold_elem_of Hi.
  all: split_hyps; simplify_eq.
  all: try (by apply rtc_refl).
  all: try match goal with
         | IH : Visit ?i ∈ ?tr -> _, H : Visit ?i ∈ ?tr |- _ =>
             specialize (IH H); cbn in IH; split_hyps
         end.
  all: try (by (eapply rtc_l; [by eapply successor_jump|done])).
  all: try (by (eapply rtc_l; [by eapply successor_fall|done])).
  all: done.
Qed.

(** When the walk returns [UBPF_WALK_CONTINUE], every edge out of an
    entered offset leads to a marked offset. *)
Lemma walks_closed p data off visited tr r :
  walks p data off visited tr r ->
  forall d v', r = Done (UBPF_WALK_CONTINUE, d, v') ->
  (forall k i, Visit k ∈ tr -> successor k i -> marked v' i) /\
  match p with
  | Walk => True
  | Fall => off <> num_insts vm - 1 -> marked v' (off + 1)
  end.
Proof.
  induction 1; intros d0 v0 Hr; try discriminate.
  all: try match goal with
         | H : forall d v, ?r <> Done (UBPF_WALK_CONTINUE, d, v) |- _ =>
             by destruct (H _ _ Hr)
         end.
  all: simplify_eq.
  all: try match goal with
         | H : activation _ _ _ _ _ _ _ _ |- _ =>
             pose proof (activation_visited _ _ _ _ _ _ _ _ _ _ H)
               as (_ & _ & _ & Hmono & _);
             destruct H as (Hinst & _ & _)
         end.
  all: repeat match goal with
         | H : walks Walk _ _ _ _ (Done _) |- _ =>
             pose proof (walks_done_enters _ _ _ _ _ _ _ H _ _ _ eq_refl);
             pose proof (walks_visited _ _ _ _ _ _ _ _ H _ _ _ eq_refl)
               as (_ & _ & ?);
             revert H
         | H : walks Fall _ _ _ _ (Done _) |- _ =>
             pose proof (walks_visited _ _ _ _ _ _ _ _ H _ _ _ eq_refl)
               as (_ & _ & ?);
             revert H
         end; intros.
  all: repeat match goal with
         | IH : forall d v, Done _ = Done _ -> _ |- _ =>
             destruct (IH _ _ eq_refl) as [? ?]; clear IH
         end.
  all: (split; [intros k i Hk Hs; unfold_elem_of Hk; split_hyps; simplify_eq
               |try done]).
  all: try match goal with
         | Hs : successor ?o _, Hinst : array_get _ ?o = Some ?inst |- _ =>
             let inst' := fresh "inst'" in
             destruct Hs as (inst' & Hi' & Hne & Hs);
             assert (inst' = inst) as -> by congruence;
             destruct Hs as [[? ->]|[? ->]]
         end.
  all: try congruence.
  all: try (by eauto 8).
  apply H. left. by exists v.
Qed.

(** Entering offset 0 and returning [UBPF_WALK_CONTINUE], the walk has
    entered every offset connected to offset 0. *)
Lemma walks_reachable_entered data tr d v :
  walks Walk data 0 (fresh_visited vm) tr (Done (UBPF_WALK_CONTINUE, d, v)) ->
  forall i, rtc successor 0 i -> Visit i ∈ tr.
Proof.
  intros Hrun i Hreach.
  destruct (walks_closed _ _ _ _ _ _ Hrun _ _ eq_refl) as [Hclosed _].
  pose proof (walks_marked_inv _ _ _ _ _ _ _ _ Hrun _ _ _ eq_refl) as Hinv.
  revert i Hreach. apply rtc_ind_r.
  - by eapply walks_done_enters.
  - intros k i _ Hs IH.
    destruct (Hinv i (Hclosed k i IH Hs)) as [Hf|?]; [|done].
    by apply fresh_visited_unmarked in Hf.
Qed.

End WalkFlow.

(** X3.  The offsets a walk from offset 0 enters are all connected to
    offset 0 by the edges the walker follows (fall-through from every
    instruction but [exit], also from an unconditional jump; the target
    edge of a jump).  When the walk returns [UBPF_WALK_CONTINUE] it has
    entered exactly the offsets so connected. *)
Theorem walk_enters_reachable `{hdr : ebpf_h} {D : Type} (vm : ubpf_vm)
    (walk_fn : WALKER D) (fuel : nat) (data : D) (i : Z) :
  (Visit i ∈ trace (ubpf_walk_paths vm walk_fn fuel data 0 (fresh_visited vm)) ->
   reachable vm i) /\
  (forall d v,
     outcome (ubpf_walk_paths vm walk_fn fuel data 0 (fresh_visited vm))
       = Done (UBPF_WALK_CONTINUE, d, v) ->
     reachable vm i ->
     Visit i ∈ trace (ubpf_walk_paths vm walk_fn fuel data 0 (fresh_visited vm))).
Proof.
  pose proof (ubpf_walk_paths_walks vm walk_fn fuel data 0 (fresh_visited vm))
    as Hrun.
  split.
  - intros Hi. exact (walks_entered_reachable _ _ _ _ _ _ _ _ Hrun i Hi).
  - intros d v Hr Hreach. rewrite Hr in Hrun.
    by eapply walks_reachable_entered.
Qed.

Lemma walk_enters_reachable_witness :
  outcome (loop_walk prog_diamond 3)
    = Done (UBPF_WALK_CONTINUE, tt, [1; 1; 1; 0]) /\
  (reachable prog_diamond 2 -> Visit 2 ∈ trace (loop_walk prog_diamond 3)).
Proof.
  split; [reflexivity|].
  exact (proj2 (walk_enters_reachable prog_diamond
                  _walker_no_loops_or_dead_insts 3 tt 2)
           tt [1; 1; 1; 0] eq_refl).
Defined.

(** ** Verdicts and diagnostics *)

Lemma diagnostics_app tr tr' :
  diagnostics (tr ++ tr') = diagnostics tr ++ diagnostics tr'.
Proof. apply omap_app. Qed.

Lemma diagnostics_effects es : diagnostics (map Eff es) = stderr_of es.
Proof.
  induction es as [|[] es IH]; [done|..]; cbn; [done|]. by f_equal.
Qed.

Lemma diagnostics_cons_rd i tr :
  diagnostics (Eff (RdVisited i) :: tr) = diagnostics tr.
Proof. done. Qed.

Lemma diagnostics_cons_follow e i tr :
  diagnostics (Follow e i :: tr) = diagnostics tr.
Proof. done. Qed.

Lemma diagnostics_stderr dg : diagnostics [Eff (Stderr dg)] = [dg].
Proof. done. Qed.

Lemma diagnostics_entry_events off es :
  diagnostics (entry_events off es) = stderr_of es.
Proof.
  unfold entry_events. cbn.
  by rewrite diagnostics_app, diagnostics_effects, app_nil_r.
Qed.

Section WalkDiagnostics.

Context {hdr : ebpf_h} {D : Type}.
Variable vm : ubpf_vm.
Variable walk_fn : WALKER D.
Variable P : diag -> Prop.
Hypothesis walk_fn_reports : visitor_reports P vm walk_fn.

#[local] Abbreviation activation := (activation vm walk_fn).
#[local] Abbreviation walks := (walks vm walk_fn).

Lemma walks_verdict_diags p data off visited tr r :
  walks p data off visited tr r -> verdict_diags P r (diagnostics tr).
Proof.
  induction 1.
  all: try match goal with
         | H : activation _ _ _ _ _ _ _ _ |- _ => destruct H as (_ & Hv & _)
         end.
  all: try match goal with
         | Hv : walk_fn vm ?inst ?data ?off ?visited = _ |- _ =>
             pose proof (walk_fn_reports inst data off visited) as Hrep;
             rewrite Hv in Hrep
         end.
  all: rewrite ?diagnostics_app, ?diagnostics_entry_events,
         ?diagnostics_cons_rd, ?diagnostics_cons_follow,
         ?diagnostics_app, ?diagnostics_stderr.
  all: try match goal with
         | H : stderr_of _ = [] |- _ => rewrite H
         end.
  all: try done.
  - destruct cmd; done.
  - eexists. by left.
  - eexists. right. by eexists.
  - cbn in IHwalks1. by rewrite IHwalks1.
Qed.

End WalkDiagnostics.

Lemma loop_visitor_reports `{ebpf_h} vm :
  visitor_reports is_loop_diag vm _walker_no_loops_or_dead_insts.
Proof.
  intros inst [] off visited. unfold _walker_no_loops_or_dead_insts.
  destruct (_ && _); [|done]. unfold vread_visited.
  destruct (array_get _ _) as [v|]; [|done]. cbn.
  destruct (v =? 0); cbn; [done|]. eexists. split; [done|]. by eexists.
Qed.

Lemma call_sets_r0_silent `{ebpf_h} inst reg_init :
  call_sets_r0 inst reg_init = ([], None) \/
  exists reg', call_sets_r0 inst reg_init = ([], Some (UBPF_WALK_CONTINUE, reg')).
Proof.
  unfold call_sets_r0. destruct (opcode inst =? _); [|right; by eexists].
  unfold vlift. destruct (array_set _ _ _); cbn; [right; by eexists|by left].
Qed.

Lemma uninit_visitor_reports `{ebpf_h} vm :
  visitor_reports is_uninit_diag vm _walker_no_uninit_regs.
Proof.
  intros inst reg_init off visited. unfold _walker_no_uninit_regs.
  destruct (_ && _).
  { unfold vlift. destruct (array_set _ _ _) as [reg|]; cbn; [|done].
    by destruct (call_sets_r0_silent inst reg) as [->|[? ->]]. }
  assert (Hrd : exists b, reads_unset inst reg_init = ([], b)).
  { unfold reads_unset. destruct (uses_src inst); [|by eexists].
    unfold vlift. destruct (array_get _ _); by eexists. }
  destruct Hrd as [[[]|] ->]; cbn.
  - eexists. split; [done|]. by do 2 eexists.
  - destruct (sets_dst inst).
    + destruct (array_set _ _ _) as [reg|]; cbn; [|done].
      by destruct (call_sets_r0_silent inst reg) as [->|[? ->]].
    + by destruct (call_sets_r0_silent inst reg_init) as [->|[? ->]].
  - done.
Qed.

(** ** The scan for dead instructions, exactly *)

Lemma seqZ_succ i (count : nat) :
  seqZ i (Z.of_nat (S count)) = i :: seqZ (i + 1) (Z.of_nat count).
Proof.
  rewrite seqZ_cons by lia. f_equal. f_equal; lia.
Qed.

Lemma filter_ext_elem_of {A} (P Q : A -> Prop) `{!forall x, Decision (P x)}
    `{!forall x, Decision (Q x)} (l : list A) :
  (forall x, x ∈ l -> P x <-> Q x) -> filter P l = filter Q l.
Proof.
  induction l as [|x l IH]; intros HPQ; [done|].
  rewrite !filter_cons.
  pose proof (HPQ x ltac:(left)) as Hx.
  rewrite IH by (intros y Hy; apply HPQ; by right).
  destruct (decide (P x)), (decide (Q x)); tauto.
Qed.

Lemma scan_dead_exact visited count i any_dead :
  0 <= i ->
  i + Z.of_nat count <= Z.of_nat (length visited) ->
  exists tr,
    scan_dead visited count i any_dead =
      (tr, Done (match filter (fun j => array_get visited j = Some 0)
                         (seqZ i (Z.of_nat count)) with
                 | [] => any_dead
                 | _ => 1
                 end)) /\
    diagnostics tr =
      map DeadInstruction
          (filter (fun j => array_get visited j = Some 0)
                  (seqZ i (Z.of_nat count))).
Proof.
  revert i any_dead. induction count as [|count IH]; intros i any_dead Hi Hlen.
  { by exists []. }
  rewrite seqZ_succ, filter_cons.
  cbn [scan_dead]. unfold read_visited, vread_visited, stderr.
  destruct (array_get_in_range visited i ltac:(lia)) as [v Hv].
  rewrite Hv. cbn.
  destruct (Z.eqb_spec v 0) as [->|Hne]; cbn.
  - destruct (IH (i + 1) 1 ltac:(lia) ltac:(lia)) as (tr & -> & Htr).
    rewrite decide_True by done. cbn. eexists. split.
    + f_equal. by destruct (filter _ _).
    + cbn. f_equal. exact Htr.
  - destruct (IH (i + 1) any_dead ltac:(lia) ltac:(lia)) as (tr & -> & Htr).
    rewrite decide_False by congruence. cbn. eexists. split; [done|].
    exact Htr.
Qed.

Section DeadScan.

Context {hdr : ebpf_h} {D : Type}.
Variable vm : ubpf_vm.
Variable walk_fn : WALKER D.

Lemma walk_unmarked_iff data tr cmd d v :
  walks vm walk_fn Walk data 0 (fresh_visited vm) tr (Done (cmd, d, v)) ->
  length v = length (insts vm) /\
  forall i, 0 <= i < num_insts vm ->
    array_get v i = Some 0 <-> Visit i ∉ tr.
Proof.
  intros Hrun.
  destruct (walks_visited _ _ _ _ _ _ _ _ Hrun _ _ _ eq_refl) as (Hlen & _ & Hm).
  rewrite length_fresh_visited in Hlen. split; [done|].
  intros i Hi. split.
  - intros Hz Hin. by eapply marked_zero, Hm; [|right].
  - intros Hin. apply unmarked_in_range; [unfold num_insts in Hi; lia|].
    intros Hmk.
    destruct (walks_marked_inv _ _ _ _ _ _ _ _ Hrun _ _ _ eq_refl i Hmk) as [Hf|?];
      [by apply fresh_visited_unmarked in Hf|done].
Qed.

Lemma walk_dead_slots data tr cmd d v :
  walks vm walk_fn Walk data 0 (fresh_visited vm) tr (Done (cmd, d, v)) ->
  filter (fun j => array_get v j = Some 0)
         (seqZ 0 (Z.of_nat (Z.to_nat (num_insts vm)))) =
  unentered vm tr.
Proof.
  intros Hrun. destruct (walk_unmarked_iff _ _ _ _ _ Hrun) as [_ Hz].
  unfold unentered. rewrite Z2Nat.id by (unfold num_insts; lia).
  apply filter_ext_elem_of. intros i Hi%elem_of_seqZ.
  rewrite elem_of_entered. apply Hz. lia.
Qed.

End DeadScan.

Lemma loop_pass_result `{hdr : ebpf_h} (vm : ubpf_vm) (fuel : nat) (r : Z) :
  outcome (ubpf_verify_no_loops_or_dead_insts fuel vm) = Done r ->
  exists cmd v,
    outcome (loop_walk vm fuel) = Done (cmd, tt, v) /\
    diagnostics (trace (ubpf_verify_no_loops_or_dead_insts fuel vm)) =
      diagnostics (trace (loop_walk vm fuel)) ++
      map DeadInstruction (unentered vm (trace (loop_walk vm fuel))) /\
    r = Z.lor (action_code cmd)
              (if decide (unentered vm (trace (loop_walk vm fuel)) = [])
               then 0 else 1).
Proof.
  unfold ubpf_verify_no_loops_or_dead_insts. fold (loop_walk vm fuel).
  pose proof (ubpf_walk_paths_walks vm _walker_no_loops_or_dead_insts fuel tt 0
                (fresh_visited vm)) as Hrun.
  fold (loop_walk vm fuel) in Hrun.
  destruct (loop_walk vm fuel) as [tr [[[cmd []] v]| |]] eqn:Hw; cbn in *;
    [|done..].
  pose proof (walk_dead_slots _ _ _ _ _ _ _ Hrun) as Hdead.
  destruct (walk_unmarked_iff _ _ _ _ _ _ _ Hrun) as [Hlen _].
  destruct (scan_dead_exact v (Z.to_nat (num_insts vm)) 0 0 ltac:(lia)
              ltac:(unfold num_insts; lia)) as (tr' & Hs & Hd).
  rewrite Hdead in Hs, Hd. rewrite Hs. cbn. intros [= <-].
  exists cmd, v. split_and!; [done|..].
  - by rewrite app_nil_r, diagnostics_app, Hd.
  - f_equal. by destruct (unentered vm tr).
Qed.

Lemma walk_start_result `{hdr : ebpf_h} {D} (vm : ubpf_vm) (walk_fn : WALKER D)
    (P : diag -> Prop) (fuel : nat) (data : D) (r : Z) :
  visitor_reports P vm walk_fn ->
  outcome (ubpf_walk_start vm walk_fn fuel data) = Done r ->
  code_diags P r (diagnostics (trace (ubpf_walk_start vm walk_fn fuel data))).
Proof.
  intros Hrep. unfold ubpf_walk_start.
  pose proof (walks_verdict_diags vm walk_fn P Hrep _ _ _ _ _ _
                (ubpf_walk_paths_walks vm walk_fn fuel data 0 (fresh_visited vm)))
    as Hv.
  destruct (ubpf_walk_paths _ _ _ _ _ _) as [tr [[[cmd d] v]| |]]; cbn in *;
    [|done..].
  intros [= <-]. rewrite app_nil_r. unfold code_diags.
  destruct cmd; cbn; auto.
Qed.

#[local] Arguments diagnostics : simpl never.

Lemma loop_pass_silent_iff `{hdr : ebpf_h} (vm : ubpf_vm) (fuel : nat) (r : Z) :
  outcome (ubpf_verify_no_loops_or_dead_insts fuel vm) = Done r ->
  (r = 0 /\ diagnostics (trace (ubpf_verify_no_loops_or_dead_insts fuel vm)) = [])
  \/
  (r <> 0 /\
   diagnostics (trace (ubpf_verify_no_loops_or_dead_insts fuel vm)) <> [] /\
   forall dg, dg ∈ diagnostics (trace (ubpf_verify_no_loops_or_dead_insts fuel vm)) ->
     ~ is_uninit_diag dg).
Proof.
  intros Hr. destruct (loop_pass_result vm fuel r Hr) as (cmd & v & Hw & -> & ->).
  pose proof (walks_verdict_diags vm _ _ (loop_visitor_reports vm) _ _ _ _ _ _
                (ubpf_walk_paths_walks vm _walker_no_loops_or_dead_insts fuel tt 0
                   (fresh_visited vm))) as Hv.
  fold (loop_walk vm fuel) in Hv. rewrite Hw in Hv.
  set (dead := unentered vm (trace (loop_walk vm fuel))) in *.
  assert (Hdead : forall dg, dg ∈ map DeadInstruction dead -> ~ is_uninit_diag dg).
  { intros dg (j & -> & _)%list_elem_of_fmap (? & ? & [=]). }
  destruct cmd; cbn in Hv.
  - rewrite Hv. case_decide as Hd.
    + left. by rewrite Hd.
    + right. split_and!; [done| |done].
      destruct dead; [done|]. done.
  - right. destruct Hv as (dg & -> & k & ->). split_and!.
    + by case_decide.
    + done.
    + intros dg [->%list_elem_of_singleton|Hin]%elem_of_app; [|by apply Hdead].
      intros (? & ? & [=]).
  - right. destruct Hv as (k & Hv). split_and!.
    + by case_decide.
    + by destruct Hv as [->|[t ->]].
    + intros dg [Hin|Hin]%elem_of_app; [|by apply Hdead].
      destruct Hv as [Hv|[t Hv]]; rewrite Hv in Hin;
        apply list_elem_of_singleton in Hin as ->; intros (? & ? & [=]).
Qed.

(** X4.  Whenever the pass for loops and dead instructions returns, what
    it has printed is what its walk printed followed by one
    [DeadInstruction] line for each offset of the program the walk did
    not enter, in increasing order; and its result is the walk's verdict
    or-ed with 1 when there is such an offset. *)
Theorem no_loops_or_dead_insts_reports_unentered `{hdr : ebpf_h}
    (vm : ubpf_vm) (fuel : nat) (r : Z) :
  outcome (ubpf_verify_no_loops_or_dead_insts fuel vm) = Done r ->
  exists cmd v,
    outcome (loop_walk vm fuel) = Done (cmd, tt, v) /\
    diagnostics (trace (ubpf_verify_no_loops_or_dead_insts fuel vm)) =
      diagnostics (trace (loop_walk vm fuel)) ++
      map DeadInstruction (unentered vm (trace (loop_walk vm fuel))) /\
    r = Z.lor (action_code cmd)
              (if decide (unentered vm (trace (loop_walk vm fuel)) = [])
               then 0 else 1).
Proof. apply loop_pass_result. Qed.

Lemma no_loops_or_dead_insts_reports_unentered_witness :
  outcome (ubpf_verify_no_loops_or_dead_insts 3 prog_dead_tail) = Done 1 /\
  exists cmd v,
    outcome (loop_walk prog_dead_tail 3) = Done (cmd, tt, v) /\
    diagnostics (trace (ubpf_verify_no_loops_or_dead_insts 3 prog_dead_tail)) =
      diagnostics (trace (loop_walk prog_dead_tail 3)) ++
      map DeadInstruction (unentered prog_dead_tail (trace (loop_walk prog_dead_tail 3))) /\
    1 = Z.lor (action_code cmd)
              (if decide (unentered prog_dead_tail
                            (trace (loop_walk prog_dead_tail 3)) = [])
               then 0 else 1).
Proof.
  split; [reflexivity|].
  apply (no_loops_or_dead_insts_reports_unentered prog_dead_tail 3 1).
  reflexivity.
Defined.

(** X5.  The walk of the pass for loops prints in step with its verdict:
    nothing when it returns [UBPF_WALK_CONTINUE] or runs out of fuel, one
    [LoopDetected] line when it returns [UBPF_WALK_STOP], and one
    jump-to-self or jump-out-of-bounds line when it returns
    [UBPF_WALK_INVALID]. *)
Theorem loop_walk_prints_its_verdict `{hdr : ebpf_h} (vm : ubpf_vm) (fuel : nat) :
  verdict_diags is_loop_diag (outcome (loop_walk vm fuel))
                (diagnostics (trace (loop_walk vm fuel))).
Proof.
  apply (walks_verdict_diags vm _ _ (loop_visitor_reports vm) Walk tt 0
           (fresh_visited vm)).
  apply ubpf_walk_paths_walks.
Qed.

(** X6.  Whenever the pass for uninitialised registers returns, it
    returns 0, 1 or 2: 0 having printed nothing, 1 having printed one
    [UninitializedRegister] line, 2 having printed one jump-to-self or
    jump-out-of-bounds line. *)
Theorem no_uninit_regs_prints_its_result `{hdr : ebpf_h} (vm : ubpf_vm)
    (fuel : nat) (r : Z) :
  outcome (ubpf_verify_no_uninit_regs fuel vm) = Done r ->
  code_diags is_uninit_diag r
             (diagnostics (trace (ubpf_verify_no_uninit_regs fuel vm))).
Proof. apply walk_start_result, uninit_visitor_reports. Qed.

Lemma no_uninit_regs_prints_its_result_witness :
  outcome (ubpf_verify_no_uninit_regs 3 prog_uninit_read) = Done 1 /\
  code_diags is_uninit_diag 1
             (diagnostics (trace (ubpf_verify_no_uninit_regs 3 prog_uninit_read))).
Proof.
  split; [reflexivity|].
  apply (no_uninit_regs_prints_its_result prog_uninit_read 3 1). reflexivity.
Defined.

Lemma verify_result `{hdr : ebpf_h} (vm : ubpf_vm) (fuel : nat) (r : Z) :
  outcome (ubpf_verify fuel vm) = Done r ->
  (r = 0 /\ diagnostics (trace (ubpf_verify fuel vm)) = []) \/
  (r = 1 /\ diagnostics (trace (ubpf_verify fuel vm)) <> [] /\
   forall dg, dg ∈ diagnostics (trace (ubpf_verify fuel vm)) ->
     is_uninit_diag dg -> diagnostics (trace (ubpf_verify fuel vm)) = [dg]).
Proof.
  unfold ubpf_verify.
  pose proof (loop_pass_silent_iff vm fuel) as H1.
  pose proof (fun r => walk_start_result vm _ _ fuel reg_init_start r
                         (uninit_visitor_reports vm)) as H2.
  fold (ubpf_verify_no_uninit_regs fuel vm) in H2.
  destruct (ubpf_verify_no_loops_or_dead_insts fuel vm) as [tr1 [r1| |]];
    cbn in *; [|done..].
  destruct (H1 r1 eq_refl) as [[-> Hd1]|(Hne & Hd1 & Hno)]; cbn.
  - destruct (ubpf_verify_no_uninit_regs fuel vm) as [tr2 [r2| |]];
      cbn in *; [|done..].
    destruct (H2 r2 eq_refl) as [[-> Hd2]|[[-> Hd2]|[-> Hd2]]]; cbn;
      intros [= <-]; rewrite !diagnostics_app, Hd1, app_nil_r; cbn [app].
    + left. by rewrite Hd2.
    + right. destruct Hd2 as (dg & -> & _). split_and!; [done..|].
      by intros ? ->%list_elem_of_singleton _.
    + right. destruct Hd2 as (k & [->|[t ->]]); (split_and!; [done..|]);
        intros ? ->%list_elem_of_singleton (? & ? & [=]).
  - destruct (Z.eqb_spec r1 0) as [|_]; [done|]. cbn. intros [= <-].
    right. rewrite !app_nil_r. split_and!; [done..|].
    intros dg Hin Hu. by destruct (Hno dg Hin).
Qed.

(** X7.  Whenever [ubpf_verify] returns, it returns 0 or 1, and it
    returns 0 exactly when it has printed nothing on [stderr]. *)
Theorem verify_accepts_iff_silent `{hdr : ebpf_h} (vm : ubpf_vm) (fuel : nat)
    (r : Z) :
  outcome (ubpf_verify fuel vm) = Done r ->
  (r = 0 \/ r = 1) /\
  (r = 0 <-> diagnostics (trace (ubpf_verify fuel vm)) = []).
Proof.
  intros Hr. destruct (verify_result vm fuel r Hr) as [[-> Hd]|(-> & Hd & _)].
  - split; [by left|done].
  - split; [by right|]. split; [done|]. intros Hd'. by rewrite Hd' in Hd.
Qed.

Lemma verify_accepts_iff_silent_witness :
  outcome (ubpf_verify 4 prog_zero_idiom) = Done 0 /\
  ((0 = 0 \/ 0 = 1) /\
   (0 = 0 <-> diagnostics (trace (ubpf_verify 4 prog_zero_idiom)) = [])).
Proof.
  split; [reflexivity|].
  apply (verify_accepts_iff_silent prog_zero_idiom 4 0). reflexivity.
Defined.

(** X8.  An [UninitializedRegister] line is never printed next to
    another diagnostic: the register pass runs only after a silent first
    pass and stops at its first report. *)
Theorem verify_uninit_report_is_alone `{hdr : ebpf_h} (vm : ubpf_vm)
    (fuel : nat) (r reg off : Z) :
  outcome (ubpf_verify fuel vm) = Done r ->
  UninitializedRegister reg off ∈ diagnostics (trace (ubpf_verify fuel vm)) ->
  diagnostics (trace (ubpf_verify fuel vm)) = [UninitializedRegister reg off].
Proof.
  intros Hr Hin.
  destruct (verify_result vm fuel r Hr) as [[-> Hd]|(-> & _ & Hd)].
  - rewrite Hd in Hin. by apply elem_of_nil in Hin.
  - apply Hd; [done|]. by do 2 eexists.
Qed.

Lemma verify_uninit_report_is_alone_witness :
  outcome (ubpf_verify 3 prog_uninit_read) = Done 1 /\
  UninitializedRegister 3 0 ∈ diagnostics (trace (ubpf_verify 3 prog_uninit_read)) /\
  diagnostics (trace (ubpf_verify 3 prog_uninit_read)) =
    [UninitializedRegister 3 0].
Proof.
  assert (Hr : outcome (ubpf_verify 3 prog_uninit_read) = Done 1) by reflexivity.
  assert (Hin : UninitializedRegister 3 0 ∈
                diagnostics (trace (ubpf_verify 3 prog_uninit_read))).
  { vm_compute. apply list_elem_of_here. }
  split; [exact Hr|]. split; [exact Hin|].
  exact (verify_uninit_report_is_alone prog_uninit_read 3 1 3 0 Hr Hin).
Defined.

Lemma unentered_nil `{hdr : ebpf_h} (vm : ubpf_vm) tr :
  unentered vm tr = [] <-> forall i, 0 <= i < num_insts vm -> Visit i ∈ tr.
Proof.
  unfold unentered. split.
  - intros Hnil i Hi. rewrite <-elem_of_entered.
    destruct (decide (i ∈ entered tr)) as [|Hni]; [done|].
    assert (Hin : i ∈ filter (fun i => i ∉ entered tr) (seqZ 0 (num_insts vm))).
    { apply list_elem_of_filter. split; [done|]. apply elem_of_seqZ. lia. }
    rewrite Hnil in Hin. by apply elem_of_nil in Hin.
  - intros Hall. destruct (filter _ _) as [|x l] eqn:Hf; [done|].
    assert (Hin : x ∈ filter (fun i => i ∉ entered tr) (seqZ 0 (num_insts vm))).
    { rewrite Hf. left. }
    apply list_elem_of_filter in Hin as [Hni Hx%elem_of_seqZ].
    destruct Hni. apply elem_of_entered, Hall. lia.
Qed.

(** X9.  Whenever the pass for loops and dead instructions returns, it
    returns 0 exactly when its walk returned [UBPF_WALK_CONTINUE] and
    every offset of the program is connected to offset 0 by the edges
    the walker follows. *)
Theorem no_loops_or_dead_insts_accepts_iff `{hdr : ebpf_h} (vm : ubpf_vm)
    (fuel : nat) (r : Z) :
  outcome (ubpf_verify_no_loops_or_dead_insts fuel vm) = Done r ->
  r = 0 <->
  (exists v, outcome (loop_walk vm fuel) = Done (UBPF_WALK_CONTINUE, tt, v)) /\
  (forall i, 0 <= i < num_insts vm -> reachable vm i).
Proof.
  intros Hr. destruct (loop_pass_result vm fuel r Hr) as (cmd & v & Hw & _ & ->).
  pose proof (ubpf_walk_paths_walks vm _walker_no_loops_or_dead_insts fuel tt 0
                (fresh_visited vm)) as Hrun.
  fold (loop_walk vm fuel) in Hrun. rewrite Hw in Hrun.
  split.
  - intros Hz. destruct cmd; [|by case_decide..].
    split; [by eexists|]. case_decide as Hd; [|done].
    intros i Hi. rewrite unentered_nil in Hd.
    exact (walks_entered_reachable _ _ _ _ _ _ _ _ Hrun i (Hd i Hi)).
  - intros [[v' Hv'] Hall]. rewrite Hw in Hv'. injection Hv' as -> ->.
    rewrite decide_True; [done|]. apply unentered_nil. intros i Hi.
    eapply walks_reachable_entered; [exact Hrun|]. by apply Hall.
Qed.

Lemma no_loops_or_dead_insts_accepts_iff_witness :
  outcome (ubpf_verify_no_loops_or_dead_insts 4 prog_zero_idiom) = Done 0 /\
  (0 = 0 <->
   (exists v, outcome (loop_walk prog_zero_idiom 4)
              = Done (UBPF_WALK_CONTINUE, tt, v)) /\
   (forall i, 0 <= i < num_insts prog_zero_idiom -> reachable prog_zero_idiom i)).
Proof.
  split; [reflexivity|].
  apply (no_loops_or_dead_insts_accepts_iff prog_zero_idiom 4 0). reflexivity.
Defined.

(** ** Memory safety *)

Section WalkSafe.

Context {hdr : ebpf_h} {D : Type}.
Variable vm : ubpf_vm.
Variable walk_fn : WALKER D.
Variable I : D -> Prop.
Hypothesis walk_fn_safe : visitor_safe I vm walk_fn.

#[local] Abbreviation activation := (activation vm walk_fn).
#[local] Abbreviation walks := (walks vm walk_fn).
#[local] Abbreviation in_bounds := (in_bounds vm).

Lemma activation_safe data off visited inst es cmd data' visited' :
  activation data off visited inst es cmd data' visited' ->
  length visited = length (insts vm) -> I data ->
  I data' /\ length visited' = length (insts vm).
Proof.
  intros (Hf & Hv & Hm) Hlen HI.
  destruct (walk_fn_safe inst data off visited Hf Hlen HI)
    as (es' & cmd' & d' & Hv' & HI').
  rewrite Hv in Hv'. injection Hv' as -> -> ->.
  split; [done|]. by rewrite (array_set_length _ _ _ _ Hm).
Qed.

Lemma walks_safe p data off visited tr r :
  walks p data off visited tr r ->
  length visited = length (insts vm) -> I data ->
  0 <= off < num_insts vm ->
  r <> Fault /\
  forall cmd d v, r = Done (cmd, d, v) -> I d /\ length v = length (insts vm).
Proof.
  induction 1; intros Hlen HI Hoff.
  all: try match goal with
         | H : activation _ _ _ _ _ _ _ _ |- _ =>
             destruct (activation_safe _ _ _ _ _ _ _ _ H Hlen HI) as [HI' Hlen']
         end.
  all: try (split; [done|]; intros ? ? ? [= <- <- <-]; done).
  all: unfold in_bounds, num_insts in *.
  - destruct (array_get_in_range (insts vm) off ltac:(lia)); congruence.
  - destruct (walk_fn_safe inst data off visited) as (? & ? & ? & ? & _);
      [done..|congruence].
  - rewrite array_set_in_range in * by lia. done.
  - destruct (array_get_in_range visited' next_pc ltac:(lia)); congruence.
  - apply IHwalks; [done..|lia].
  - destruct IHwalks1 as [_ IH1]; [done..|lia|].
    destruct (IH1 _ _ _ eq_refl). by apply IHwalks2.
  - by apply IHwalks.
  - by apply IHwalks.
  - apply IHwalks; [done..|lia].
Qed.

End WalkSafe.

Lemma loop_visitor_safe `{hdr : ebpf_h} (vm : ubpf_vm) :
  no_negative_targets vm ->
  visitor_safe (fun _ => True) vm _walker_no_loops_or_dead_insts.
Proof.
  intros Hneg inst data off visited Hf Hlen _.
  unfold _walker_no_loops_or_dead_insts.
  destruct (isjmp inst) eqn:Hj; cbn [andb]; [|by do 3 eexists].
  destruct (Z.ltb_spec (off + 1 + offset inst) off) as [Hlt|]; [|by do 3 eexists].
  pose proof (Hneg off inst Hf Hj) as Hge. apply array_get_Some in Hf.
  destruct (array_get_in_range visited (off + 1 + offset inst) ltac:(lia))
    as [v Hv].
  unfold vread_visited. rewrite Hv. cbn.
  destruct (v =? 0); cbn; by do 3 eexists.
Qed.

Lemma uninit_visitor_safe `{hdr : ebpf_h} (vm : ubpf_vm) :
  regs_in_range vm -> visitor_safe reg_file vm _walker_no_uninit_regs.
Proof.
  intros Hregs inst reg_init off visited Hf _ Hlen.
  destruct (Hregs off inst Hf) as [Hdst Hsrc].
  assert (Hdec : Decision (reads_unmarked inst reg_init)).
  { unfold reads_unmarked, xor_self. apply _. }
  destruct Hdec as [Hrd|Hrd].
  - rewrite (no_uninit_regs_flagged vm inst reg_init off visited Hrd).
    by do 3 eexists.
  - destruct (no_uninit_regs_continue vm inst reg_init off visited Hdst Hsrc
                Hlen Hrd) as (reg' & -> & Hlen' & _).
    by do 3 eexists.
Qed.

Lemma walk_start_safe `{hdr : ebpf_h} {D} (vm : ubpf_vm) (walk_fn : WALKER D)
    (I : D -> Prop) (fuel : nat) (data : D) :
  visitor_safe I vm walk_fn -> I data -> 1 <= num_insts vm ->
  outcome (ubpf_walk_paths vm walk_fn fuel data 0 (fresh_visited vm)) <> Fault.
Proof.
  intros Hsafe HI Hn.
  eapply (walks_safe vm walk_fn I Hsafe);
    [apply ubpf_walk_paths_walks|apply length_fresh_visited|done|lia].
Qed.

Lemma reg_file_start : reg_file reg_init_start.
Proof. done. Qed.

(** X10.  On a program of at least one instruction whose register
    fields are below 16 and whose jumps have no target below offset 0,
    [ubpf_verify] never reads or writes outside the instruction array,
    the [visited] array or the register bitmap. *)
Theorem verify_stays_in_bounds `{hdr : ebpf_h} (vm : ubpf_vm) (fuel : nat) :
  1 <= num_insts vm ->
  regs_in_range vm ->
  no_negative_targets vm ->
  outcome (ubpf_verify fuel vm) <> Fault.
Proof.
  intros Hn Hregs Hneg. unfold ubpf_verify.
  pose proof (walk_start_safe vm _ _ fuel tt (loop_visitor_safe vm Hneg) Logic.I Hn)
    as H1.
  pose proof (walk_start_safe vm _ _ fuel reg_init_start
                (uninit_visitor_safe vm Hregs) reg_file_start Hn) as H2.
  unfold ubpf_verify_no_loops_or_dead_insts in *. fold (loop_walk vm fuel) in *.
  pose proof (ubpf_walk_paths_walks vm _walker_no_loops_or_dead_insts fuel tt 0
                (fresh_visited vm)) as Hrun.
  fold (loop_walk vm fuel) in Hrun.
  destruct (loop_walk vm fuel) as [tr [[[cmd []] v]| |]]; cbn in *; [|done..].
  destruct (walk_unmarked_iff _ _ _ _ _ _ _ Hrun) as [Hlen _].
  destruct (scan_dead_exact v (Z.to_nat (num_insts vm)) 0 0 ltac:(lia)
              ltac:(unfold num_insts; lia)) as (tr' & -> & _).
  cbn. destruct (negb _); [done|].
  unfold ubpf_verify_no_uninit_regs, ubpf_walk_start.
  destruct (ubpf_walk_paths _ _ _ _ _ _) as [tr2 [[[cmd2 d2] v2]| |]]; cbn in *;
    [|done..].
  by destruct (negb _).
Qed.

Lemma verify_stays_in_bounds_witness :
  1 <= num_insts prog_diamond /\
  regs_in_range prog_diamond /\
  no_negative_targets prog_diamond /\
  outcome (ubpf_verify 4 prog_diamond) <> Fault.
Proof.
  assert (Hn : 1 <= num_insts prog_diamond) by (unfold num_insts; simpl; lia).
  assert (Hregs : regs_in_range prog_diamond).
  { intros k inst Hk. unfold array_get in Hk. destruct (k <? 0); [done|].
    destruct (Z.to_nat k) as [|[|[|[|?]]]]; inversion Hk; simpl; lia. }
  assert (Hneg : no_negative_targets prog_diamond).
  { intros k inst Hk _. unfold array_get in Hk.
    destruct (Z.ltb_spec k 0); [done|].
    destruct (Z.to_nat k) as [|[|[|[|?]]]]; inversion Hk; simpl; lia. }
  split; [exact Hn|]. split; [exact Hregs|]. split; [exact Hneg|].
  exact (verify_stays_in_bounds prog_diamond 4 Hn Hregs Hneg).
Defined.

(** ** Termination of the verifier *)

Lemma scan_dead_fuel visited count i any_dead :
  outcome (scan_dead visited count i any_dead) <> OutOfFuel.
Proof.
  revert i any_dead. induction count as [|count IH]; intros i any_dead; [done|].
  cbn [scan_dead]. unfold read_visited, vread_visited, stderr.
  destruct (array_get visited i) as [v|]; [|done]. cbn.
  destruct (v =? 0); cbn.
  - specialize (IH (i + 1) 1). by destruct (scan_dead _ _ _ _) as [? []].
  - specialize (IH (i + 1) any_dead). by destruct (scan_dead _ _ _ _) as [? []].
Qed.

Lemma walk_enough_fuel `{hdr : ebpf_h} {D} (vm : ubpf_vm) (walk_fn : WALKER D)
    (fuel : nat) (data : D) :
  1 <= num_insts vm ->
  (Z.to_nat (num_insts vm * (num_insts vm + 1)) <= fuel)%nat ->
  outcome (ubpf_walk_paths vm walk_fn fuel data 0 (fresh_visited vm)) <> OutOfFuel /\
  ubpf_walk_paths vm walk_fn fuel data 0 (fresh_visited vm) =
  ubpf_walk_paths vm walk_fn (Z.to_nat (num_insts vm * (num_insts vm + 1)))
    data 0 (fresh_visited vm).
Proof.
  intros Hn Hfuel.
  set (bound := Z.to_nat (num_insts vm * (num_insts vm + 1))) in *.
  pose proof (walk_measure_start vm Hn) as Hm. fold bound in Hm.
  pose proof (ubpf_walk_paths_fuel vm walk_fn bound data 0 _ Hm) as Hb.
  pose proof (ubpf_walk_paths_fuel_le vm walk_fn bound fuel data 0 _ Hfuel Hb) as Heq.
  by rewrite Heq.
Qed.

(** X11.  On a program of at least one instruction, [ubpf_verify]
    terminates: a recursion depth of [num_insts * (num_insts + 1)] is
    enough for both of its walks, and its trace and result are the same
    at every larger depth. *)
Theorem verify_terminates `{hdr : ebpf_h} (vm : ubpf_vm) (fuel : nat) :
  1 <= num_insts vm ->
  (Z.to_nat (num_insts vm * (num_insts vm + 1)) <= fuel)%nat ->
  outcome (ubpf_verify fuel vm) <> OutOfFuel /\
  ubpf_verify fuel vm =
  ubpf_verify (Z.to_nat (num_insts vm * (num_insts vm + 1))) vm.
Proof.
  intros Hn Hfuel.
  destruct (walk_enough_fuel vm _walker_no_loops_or_dead_insts fuel tt Hn Hfuel)
    as [H1 E1].
  destruct (walk_enough_fuel vm _walker_no_uninit_regs fuel reg_init_start Hn
              Hfuel) as [H2 E2].
  unfold ubpf_verify, ubpf_verify_no_loops_or_dead_insts,
    ubpf_verify_no_uninit_regs, ubpf_walk_start.
  rewrite <-E1, <-E2. split; [|done].
  destruct (ubpf_walk_paths _ _walker_no_loops_or_dead_insts _ _ _ _)
    as [tr1 [[[cmd1 []] v1]| |]]; cbn in *; [|done..].
  pose proof (scan_dead_fuel v1 (Z.to_nat (num_insts vm)) 0 0) as Hs.
  destruct (scan_dead _ _ _ _) as [tr' [a| |]]; cbn in *; [|done..].
  destruct (negb _); [done|].
  destruct (ubpf_walk_paths _ _walker_no_uninit_regs _ _ _ _)
    as [tr2 [[[cmd2 d2] v2]| |]]; cbn in *; [|done..].
  by destruct (negb _).
Qed.

Lemma verify_terminates_witness :
  1 <= num_insts prog_diamond /\
  (Z.to_nat (num_insts prog_diamond * (num_insts prog_diamond + 1)) <= 25)%nat /\
  outcome (ubpf_verify 25 prog_diamond) <> OutOfFuel /\
  ubpf_verify 25 prog_diamond =
  ubpf_verify (Z.to_nat (num_insts prog_diamond * (num_insts prog_diamond + 1)))
    prog_diamond.
Proof.
  assert (Hn : 1 <= num_insts prog_diamond) by (unfold num_insts; simpl; lia).
  assert (Hf : (Z.to_nat (num_insts prog_diamond * (num_insts prog_diamond + 1))
                <= 25)%nat) by (unfold num_insts; simpl; lia).
  split; [exact Hn|]. split; [exact Hf|].
  exact (verify_terminates prog_diamond 25 Hn Hf).
Defined.

(** ** The register bitmap *)

Section RegPass.

Context {hdr : ebpf_h}.
Variable vm : ubpf_vm.
Hypothesis Hregs : regs_in_range vm.

#[local] Abbreviation activation := (activation vm _walker_no_uninit_regs).
#[local] Abbreviation walks := (walks vm _walker_no_uninit_regs).
#[local] Abbreviation reg_summary := (reg_summary vm).
#[local] Abbreviation written_by := (written_by vm).

Lemma marked_or_zero reg x :
  0 <= x < Z.of_nat (length reg) ->
  array_get reg x <> Some 0 -> marked reg x.
Proof.
  intros Hx Hne. destruct (array_get_in_range reg x Hx) as [v Hv].
  exists v. split; [done|]. intros ->. by rewrite Hv in Hne.
Qed.

Lemma reg_activation reg off visited inst es cmd reg' visited' :
  activation reg off visited inst es cmd reg' visited' ->
  reg_file reg ->
  reg_file reg' /\
  (forall x, marked reg x -> marked reg' x) /\
  (forall x, marked reg' x -> marked reg x \/ writes_register inst x) /\
  (cmd = UBPF_WALK_CONTINUE ->
   (forall x, writes_register inst x -> marked reg' x) /\
   (checked_read inst -> marked reg' (src inst))).
Proof.
  intros (Hf & Hv & _) Hlen. destruct (Hregs off inst Hf) as [Hdst Hsrc].
  assert (Hdec : Decision (reads_unmarked inst reg)).
  { unfold reads_unmarked, xor_self. apply _. }
  destruct Hdec as [Hrd|Hrd].
  - rewrite (no_uninit_regs_flagged vm inst reg off visited Hrd) in Hv.
    injection Hv as <- <- <-. split_and!; [done|done|by left|done].
  - destruct (no_uninit_regs_continue vm inst reg off visited Hdst Hsrc
                Hlen Hrd) as (reg0 & Hv' & Hlen' & Hm).
    rewrite Hv' in Hv. injection Hv as <- <- <-.
    unfold writes_register. split_and!; [done|..].
    + intros x Hx. apply Hm. by left.
    + intros x Hx. apply Hm in Hx. tauto.
    + intros _. split.
      * intros x Hx. apply Hm. tauto.
      * intros [Hnx Hu]. apply Hm. left.
        apply marked_or_zero; [unfold reg_file in Hlen; lia|].
        intros Hz. apply Hrd. by split_and!.
Qed.

Lemma reg_summary_nil reg cmd : reg_file reg -> reg_summary reg [] cmd reg.
Proof.
  intros Hlen. split_and!; [done|done|by left|].
  intros _. split.
  - intros x (k & inst & []%elem_of_nil & _).
  - intros k inst []%elem_of_nil.
Qed.

Lemma reg_summary_entry reg off visited inst es cmd reg' visited' :
  activation reg off visited inst es cmd reg' visited' ->
  reg_file reg ->
  reg_summary reg [off] cmd reg'.
Proof.
  intros Hact Hlen.
  destruct (reg_activation _ _ _ _ _ _ _ _ Hact Hlen) as (Hlen' & Hmono & Hinv & Hc).
  destruct Hact as (Hf & Hv & _).
  pose proof (uninit_visitor_reports vm inst reg off visited) as Hrep.
  rewrite Hv in Hrep.
  split_and!; [done|done|..].
  - intros x Hx. destruct (Hinv x Hx) as [|Hw]; [by left|right].
    exists off, inst. split_and!; [left|done..].
  - intros Hns. destruct cmd; [|done..].
    destruct (Hc eq_refl) as [Hw Hr]. split.
    + intros x (k & inst' & ->%list_elem_of_singleton & Hf' & Hx).
      apply Hw. congruence.
    + intros k inst' ->%list_elem_of_singleton Hf' Hcr. 
      assert (inst' = inst) as -> by congruence. by apply Hr.
Qed.

Lemma reg_summary_seq reg l1 d1 l2 cmd d2 :
  reg_summary reg l1 UBPF_WALK_CONTINUE d1 ->
  reg_summary d1 l2 cmd d2 ->
  reg_summary reg (l1 ++ l2) cmd d2.
Proof.
  intros (_ & Hm1 & Hi1 & Hc1) (Hlen & Hm2 & Hi2 & Hc2).
  destruct Hc1 as [Hw1 Hr1]; [done|].
  assert (Hsplit : forall x, written_by (l1 ++ l2) x <->
                             written_by l1 x \/ written_by l2 x).
  { intros x. unfold written_by. split.
    - intros (k & inst & [?|?]%elem_of_app & ? & ?); [left|right]; eauto.
    - intros [(k & inst & ? & ? & ?)|(k & inst & ? & ? & ?)];
        exists k, inst; rewrite elem_of_app; eauto. }
  split_and!; [done|by auto|..].
  - intros x Hx. rewrite Hsplit.
    destruct (Hi2 x Hx) as [Hd1|?]; [|by auto].
    destruct (Hi1 x Hd1); auto.
  - intros Hns. destruct (Hc2 Hns) as [Hw2 Hr2]. split.
    + intros x [?|?]%Hsplit; auto.
    + intros k inst [?|?]%elem_of_app ? ?; eauto.
Qed.

Lemma reg_summary_invalid reg l d :
  reg_summary reg l UBPF_WALK_CONTINUE d ->
  reg_summary reg l UBPF_WALK_INVALID d.
Proof.
  intros (? & ? & ? & Hc). split_and!; [done..|]. intros _. by apply Hc.
Qed.

Lemma walks_reg_summary p reg off visited tr r :
  walks p reg off visited tr r ->
  reg_file reg ->
  forall cmd d v, r = Done (cmd, d, v) -> reg_summary reg (entered tr) cmd d.
Proof.
  induction 1; intros Hlen c d0 v0 Hr; try discriminate.
  all: try match goal with
         | H : activation _ _ _ _ _ _ _ _ |- _ =>
             pose proof (reg_summary_entry _ _ _ _ _ _ _ _ H Hlen) as Hent;
             pose proof (reg_activation _ _ _ _ _ _ _ _ H Hlen) as (Hlen' & _)
         end.
  all: rewrite ?entered_app, ?entered_entry_events, ?entered_cons_eff,
         ?entered_cons_follow, ?entered_app.
  all: try change (entered []) with (@nil Z).
  all: rewrite ?app_nil_r.
  - simplify_eq. exact Hent.
  - simplify_eq. exact Hent.
  - simplify_eq. by apply reg_summary_invalid.
  - simplify_eq. by apply reg_summary_invalid.
  - eapply reg_summary_seq; [exact Hent|exact (IHwalks Hlen' _ _ _ Hr)].
  - eapply reg_summary_seq; [exact Hent|].
    pose proof (IHwalks1 Hlen' _ _ _ eq_refl) as Hs1.
    eapply reg_summary_seq; [exact Hs1|].
    exact (IHwalks2 (proj1 Hs1) _ _ _ Hr).
  - eapply reg_summary_seq; [exact Hent|exact (IHwalks Hlen' _ _ _ Hr)].
  - eapply reg_summary_seq; [exact Hent|exact (IHwalks Hlen' _ _ _ Hr)].
  - simplify_eq. by apply reg_summary_nil.
  - exact (IHwalks Hlen _ _ _ Hr).
Qed.

End RegPass.

(** X12.  When the walk of the register pass returns without having
    been stopped by its visitor, on a program whose register fields are
    below 16, the bitmap still has its 16 slots and marks exactly r1,
    r10 and the registers written by the instructions the walk entered
    (the destination of an instruction that sets it or of the [xor]
    idiom, r0 of a call). *)
Theorem reg_walk_final_bitmap `{hdr : ebpf_h} (vm : ubpf_vm) (fuel : nat)
    (cmd : ubpf_walk_action) (d v : list Z) :
  regs_in_range vm ->
  outcome (reg_walk vm fuel) = Done (cmd, d, v) ->
  cmd <> UBPF_WALK_STOP ->
  length d = 16%nat /\
  forall x, marked d x <->
            x = 1 \/ x = 10 \/ written_by vm (entered (trace (reg_walk vm fuel))) x.
Proof.
  intros Hregs Hr Hns.
  pose proof (ubpf_walk_paths_walks vm _walker_no_uninit_regs fuel
                reg_init_start 0 (fresh_visited vm)) as Hrun.
  destruct (walks_reg_summary vm Hregs _ _ _ _ _ _ Hrun reg_file_start _ _ _ Hr)
    as (Hlen & Hmono & Hinv & Hc).
  destruct (Hc Hns) as [Hw _]. split; [done|].
  intros x. pose proof (reg_init_start_marked x) as Hs. split.
  - intros Hx. destruct (Hinv x Hx); tauto.
  - intros [?|[?|?]]; auto; apply Hmono; tauto.
Qed.

Lemma reg_walk_final_bitmap_witness :
  regs_in_range prog_zero_idiom /\
  outcome (reg_walk prog_zero_idiom 4)
    = Done (UBPF_WALK_CONTINUE,
            [1; 1; 0; 1; 0; 0; 0; 0; 0; 0; 1; 0; 0; 0; 0; 0], [1; 1; 1]) /\
  UBPF_WALK_CONTINUE <> UBPF_WALK_STOP /\
  length [1; 1; 0; 1; 0; 0; 0; 0; 0; 0; 1; 0; 0; 0; 0; 0] = 16%nat /\
  forall x, marked [1; 1; 0; 1; 0; 0; 0; 0; 0; 0; 1; 0; 0; 0; 0; 0] x <->
            x = 1 \/ x = 10 \/
            written_by prog_zero_idiom
              (entered (trace (reg_walk prog_zero_idiom 4))) x.
Proof.
  assert (Hregs : regs_in_range prog_zero_idiom).
  { intros k inst Hk. unfold array_get in Hk. destruct (k <? 0); [done|].
    destruct (Z.to_nat k) as [|[|[|?]]]; inversion Hk; simpl; lia. }
  assert (Hr : outcome (reg_walk prog_zero_idiom 4)
               = Done (UBPF_WALK_CONTINUE,
                       [1; 1; 0; 1; 0; 0; 0; 0; 0; 0; 1; 0; 0; 0; 0; 0],
                       [1; 1; 1])) by reflexivity.
  assert (Hns : UBPF_WALK_CONTINUE <> UBPF_WALK_STOP) by discriminate.
  split; [exact Hregs|]. split; [exact Hr|]. split; [exact Hns|].
  exact (reg_walk_final_bitmap prog_zero_idiom 4 UBPF_WALK_CONTINUE _ _
           Hregs Hr Hns).
Defined.

(** X13.  When the register pass returns 0 on a program whose register
    fields are below 16, every instruction connected to offset 0 that is
    subject to the source check reads r1, r10 or a register that some
    instruction connected to offset 0 writes. *)
Theorem no_uninit_regs_accepts_written `{hdr : ebpf_h} (vm : ubpf_vm)
    (fuel : nat) (k : Z) (inst : ebpf_inst) :
  regs_in_range vm ->
  outcome (ubpf_verify_no_uninit_regs fuel vm) = Done 0 ->
  reachable vm k ->
  array_get (insts vm) k = Some inst ->
  checked_read inst ->
  src inst = 1 \/ src inst = 10 \/
  exists j inst',
    reachable vm j /\ array_get (insts vm) j = Some inst' /\
    writes_register inst' (src inst).
Proof.
  intros Hregs Hr Hk Hf Hc. unfold ubpf_verify_no_uninit_regs, ubpf_walk_start in Hr.
  pose proof (ubpf_walk_paths_walks vm _walker_no_uninit_regs fuel
                reg_init_start 0 (fresh_visited vm)) as Hrun.
  destruct (ubpf_walk_paths _ _ _ _ _ _) as [tr [[[cmd d] v]| |]]; cbn in *;
    [|done..].
  destruct cmd; [|done..].
  destruct (walks_reg_summary vm Hregs _ _ _ _ _ _ Hrun reg_file_start _ _ _ eq_refl)
    as (_ & _ & Hinv & Hcont).
  destruct Hcont as [_ Hread]; [done|].
  assert (Hin : k ∈ entered tr).
  { apply elem_of_entered. by eapply walks_reachable_entered. }
  destruct (Hinv _ (Hread k inst Hin Hf Hc)) as [Hs|(j & inst' & Hj & Hfj & Hw)].
  - apply reg_init_start_marked in Hs. tauto.
  - right. right. exists j, inst'. split_and!; [|done..].
    apply elem_of_entered in Hj.
    exact (walks_entered_reachable _ _ _ _ _ _ _ _ Hrun j Hj).
Qed.

Lemma no_uninit_regs_accepts_written_witness :
  let inst := mk_inst EBPF_OP_ADD64_REG 0 3 0 0 in
  regs_in_range prog_zero_idiom /\
  outcome (ubpf_verify_no_uninit_regs 4 prog_zero_idiom) = Done 0 /\
  reachable prog_zero_idiom 1 /\
  array_get (insts prog_zero_idiom) 1 = Some inst /\
  checked_read inst /\
  (src inst = 1 \/ src inst = 10 \/
   exists j inst',
     reachable prog_zero_idiom j /\
     array_get (insts prog_zero_idiom) j = Some inst' /\
     writes_register inst' (src inst)).
Proof.
  intros inst.
  assert (Hregs : regs_in_range prog_zero_idiom).
  { intros k i Hk. unfold array_get in Hk. destruct (k <? 0); [done|].
    destruct (Z.to_nat k) as [|[|[|?]]]; inversion Hk; simpl; lia. }
  assert (Hr : outcome (ubpf_verify_no_uninit_regs 4 prog_zero_idiom) = Done 0)
    by reflexivity.
  assert (Hk : reachable prog_zero_idiom 1).
  { eapply rtc_l; [|apply rtc_refl].
    exists (mk_inst EBPF_OP_XOR64_REG 3 3 0 0).
    split; [reflexivity|]. split; [discriminate|].
    left. split; [discriminate|reflexivity]. }
  assert (Hf : array_get (insts prog_zero_idiom) 1 = Some inst) by reflexivity.
  assert (Hc : checked_read inst).
  { split; [|reflexivity]. intros [_ Hds]. discriminate Hds. }
  split; [exact Hregs|]. split; [exact Hr|]. split; [exact Hk|].
  split; [exact Hf|]. split; [exact Hc|].
  exact (no_uninit_regs_accepts_written prog_zero_idiom 4 1 inst
           Hregs Hr Hk Hf Hc).
Defined.

(** ** The two revisions *)

Section Revisions.

Context {hdr : ebpf_h} {D : Type}.
Variable vm : ubpf_vm.
Variable walk_fn : WALKER D.
Variable idle : WALKER unit.
Hypothesis idle_continues :
  forall inst d off visited,
    idle vm inst d off visited = ([], Some (UBPF_WALK_CONTINUE, d)).

(** A walk that returns [UBPF_WALK_CONTINUE] took no decision from its
    visitor: the walk with the visitor that does nothing marks the same
    offsets. *)
Lemma walk_continue_idle fuel data off visited d v :
  outcome (ubpf_walk_paths vm walk_fn fuel data off visited)
    = Done (UBPF_WALK_CONTINUE, d, v) ->
  outcome (ubpf_walk_paths vm idle fuel tt off visited)
    = Done (UBPF_WALK_CONTINUE, tt, v) /\
  diagnostics (trace (ubpf_walk_paths vm idle fuel tt
                        off visited)) = [].
Proof.
  revert data off visited d v.
  induction fuel as [|fuel IH]; intros data off visited d v; [done|].
  cbn [ubpf_walk_paths]. unfold fetch, mark, stderr, read_visited, vread_visited.
  cbn.
  destruct (array_get (insts vm) off) as [inst|]; cbn; [|done].
  rewrite idle_continues.
  destruct (walk_fn vm inst data off visited) as [es [[cmd data']|]]; cbn; [|done].
  destruct (array_set visited off 1) as [visited'|]; cbn; [|done].
  destruct cmd; cbn; [|done..].
  assert (Hfall : forall d1 v1,
    outcome (if off =? num_insts vm - 1
             then ret (UBPF_WALK_CONTINUE, d1, v1)
             else let '(tr', r) := ubpf_walk_paths vm walk_fn fuel d1 (off + 1) v1
                  in (Follow FallThrough (off + 1) :: tr', r))
      = Done (UBPF_WALK_CONTINUE, d, v) ->
    outcome (if off =? num_insts vm - 1
             then ret (UBPF_WALK_CONTINUE, tt, v1)
             else let '(tr', r) :=
                    ubpf_walk_paths vm idle fuel tt (off + 1) v1
                  in (Follow FallThrough (off + 1) :: tr', r))
      = Done (UBPF_WALK_CONTINUE, tt, v) /\
    diagnostics (trace (if off =? num_insts vm - 1
             then ret (UBPF_WALK_CONTINUE, tt, v1)
             else let '(tr', r) :=
                    ubpf_walk_paths vm idle fuel tt (off + 1) v1
                  in (Follow FallThrough (off + 1) :: tr', r))) = []).
  { intros d1 v1. destruct (off =? num_insts vm - 1).
    - cbn. by intros [= <- <-].
    - specialize (IH d1 (off + 1) v1 d v).
      destruct (ubpf_walk_paths vm walk_fn fuel d1 (off + 1) v1) as [tr2 r2].
      destruct (ubpf_walk_paths vm idle fuel tt (off + 1) v1)
        as [tr2' r2'].
      cbn in *. intros Hr. by destruct (IH Hr) as [-> ?]. }
  destruct (opcode inst =? EBPF_OP_EXIT); cbn; [by intros [= <- <-]|].
  destruct (isjmp inst).
  2:{ specialize (Hfall data' visited').
      destruct (if off =? num_insts vm - 1
                then ret (UBPF_WALK_CONTINUE, data', visited') else _)
        as [tr2 r2].
      destruct (if off =? num_insts vm - 1
                then ret (UBPF_WALK_CONTINUE, (), visited') else _)
        as [tr2' r2'].
      cbn in *. intros Hr. by destruct (Hfall Hr) as [-> Hd]. }
  destruct (off + 1 + offset inst =? off); cbn; [done|].
  destruct ((off + 1 + offset inst <? 0) || (off + 1 + offset inst >? num_insts vm - 1));
    cbn; [done|].
  destruct (array_get visited' (off + 1 + offset inst)) as [a|]; cbn; [|done].
  destruct (a =? 0).
  2:{ specialize (Hfall data' visited').
      destruct (if off =? num_insts vm - 1
                then ret (UBPF_WALK_CONTINUE, data', visited') else _)
        as [tr2 r2].
      destruct (if off =? num_insts vm - 1
                then ret (UBPF_WALK_CONTINUE, (), visited') else _)
        as [tr2' r2'].
      cbn in *. intros Hr. by destruct (Hfall Hr) as [-> Hd]. }
  specialize (IH data' (off + 1 + offset inst) visited').
  destruct (ubpf_walk_paths vm walk_fn fuel data' (off + 1 + offset inst) visited')
    as [tr1 [[[cmd1 d1] v1]| |]]; cbn in *; [|done..].
  destruct cmd1; cbn; [|done..].
  destruct (IH _ _ eq_refl) as [Hb Hdb].
  destruct (ubpf_walk_paths vm idle fuel ()
              (off + 1 + offset inst) visited') as [tr1' r1'].
  cbn in Hb, Hdb. subst r1'. cbn.
  specialize (Hfall d1 v1).
  destruct (if off =? num_insts vm - 1
            then ret (UBPF_WALK_CONTINUE, d1, v1) else _) as [tr2 r2].
  destruct (if off =? num_insts vm - 1
            then ret (UBPF_WALK_CONTINUE, (), v1) else _) as [tr2' r2'].
  cbn in *. intros Hr. destruct (Hfall Hr) as [-> Hd]. split; [done|].
  change (diagnostics (tr1' ++ tr2') = []). by rewrite diagnostics_app, Hdb, Hd.
Qed.

End Revisions.

Lemma rev1_verify_outcome `{hdr : ebpf_h} (vm : ubpf_vm) (fuel : nat) :
  outcome (Rev1.ubpf_verify fuel vm) =
  match outcome (ubpf_verify_no_loops_or_dead_insts fuel vm) with
  | Done r => Done (if r =? 0 then 0 else 1)
  | Fault => Fault
  | OutOfFuel => OutOfFuel
  end.
Proof.
  unfold Rev1.ubpf_verify, Rev1.ubpf_verify_no_loops, ubpf_walk_start,
    Rev1.ubpf_verify_no_dead_insts, ubpf_verify_no_loops_or_dead_insts.
  change Rev1._walker_no_loops with _walker_no_loops_or_dead_insts.
  fold (loop_walk vm fuel).
  pose proof (ubpf_walk_paths_walks vm _walker_no_loops_or_dead_insts fuel tt 0
                (fresh_visited vm)) as Hrun.
  pose proof (walk_continue_idle vm _walker_no_loops_or_dead_insts
                Rev1._walker_no_dead_insts (fun _ _ _ _ => eq_refl)
                fuel tt 0 (fresh_visited vm)) as Hsim.
  fold (loop_walk vm fuel) in Hrun, Hsim.
  destruct (loop_walk vm fuel) as [tr [[[cmd []] v]| |]]; cbn in *; [|done..].
  destruct (walk_unmarked_iff _ _ _ _ _ _ _ Hrun) as [Hlen _].
  destruct (scan_dead_exact v (Z.to_nat (num_insts vm)) 0 0 ltac:(lia)
              ltac:(unfold num_insts; lia)) as (tr' & Hs & _).
  rewrite Hs. destruct cmd; cbn.
  - destruct (Hsim _ _ eq_refl) as [Hb _].
    destruct (ubpf_walk_paths vm Rev1._walker_no_dead_insts _ _ _ _) as [trb rb].
    cbn in Hb. subst rb. cbn. rewrite Hs. cbn. by destruct (filter _ _).
  - by destruct (filter _ _).
  - by destruct (filter _ _).
Qed.

(** X14.  The two revisions agree on loops and dead instructions: the
    earlier [ubpf_verify] (a walk for loops, then a second walk and the
    scan for dead instructions) returns 0 exactly when the later
    revision's single combined pass returns 0, returns 1 whenever that
    pass returns anything else, and fails when it fails. *)
Theorem rev1_verify_agrees_with_combined_pass `{hdr : ebpf_h} (vm : ubpf_vm)
    (fuel : nat) :
  outcome (Rev1.ubpf_verify fuel vm) =
  match outcome (ubpf_verify_no_loops_or_dead_insts fuel vm) with
  | Done r => Done (if r =? 0 then 0 else 1)
  | Fault => Fault
  | OutOfFuel => OutOfFuel
  end.
Proof. apply rev1_verify_outcome. Qed.

(** X15.  The later revision only adds rejections: a program its
    [ubpf_verify] accepts is accepted by the earlier revision's. *)
Theorem verify_accepts_rev1_accepts `{hdr : ebpf_h} (vm : ubpf_vm) (fuel : nat) :
  outcome (ubpf_verify fuel vm) = Done 0 ->
  outcome (Rev1.ubpf_verify fuel vm) = Done 0.
Proof.
  rewrite rev1_verify_outcome. unfold ubpf_verify.
  destruct (ubpf_verify_no_loops_or_dead_insts fuel vm) as [tr1 [r1| |]];
    cbn; [|done..].
  destruct (r1 =? 0); cbn; [done|]. by intros [=].
Qed.

Lemma verify_accepts_rev1_accepts_witness :
  outcome (ubpf_verify 4 prog_zero_idiom) = Done 0 /\
  outcome (Rev1.ubpf_verify 4 prog_zero_idiom) = Done 0.
Proof.
  split; [reflexivity|].
  apply (verify_accepts_rev1_accepts prog_zero_idiom 4). reflexivity.
Defined.
